(** * Chained-Hash: a shallow embedding of chain-hash.c and its properties

    The table of chain-hash.c is a record [CHash] holding an unsigned element
    count, an unsigned bucket count, the caller's [hash], [match] and
    [destroy] functions and a heap array of pointers to linked lists.  The C
    functions mutate the table through a pointer, call back into caller code
    and may dereference null or run past the end of the array; the embedding
    therefore runs them in a small state-and-fault monad whose state is the
    table together with the log of callback invocations. *)

From Stdlib Require Import ZArith List Lia Bool.
From stdpp Require Import base list relations.
Import ListNotations.

Local Open Scope Z_scope.

(** ** C integers *)

Module CInt.

Definition UINT_MODULUS : Z := 4294967296.
Definition INT_MAX : Z := 2147483647.

(** Conversion of a value to [unsigned int]: reduction modulo 2^32. *)
Definition to_uint (x : Z) : Z := x mod UINT_MODULUS.

(** Conversion of a value to [int]: values above [INT_MAX] wrap around. *)
Definition to_int (x : Z) : Z :=
  let u := to_uint x in if u <=? INT_MAX then u else u - UINT_MODULUS.

End CInt.
Import CInt.

(** ** Pointers, faults and the monad *)

(** A [void *] or a function pointer: an address, with [NULL] the address 0. *)
Definition ptr : Type := Z.
Definition NULL : ptr := 0.

(** What the C code can do wrong at run time. *)
Inductive fault : Type :=
  | NullDeref
  | OutOfBounds
  | DivByZero.

Inductive outcome (A : Type) : Type :=
  | Ret (a : A)
  | Fault (f : fault).
Arguments Ret {A} a.
Arguments Fault {A} f.

Definition obind {A B} (o : outcome A) (k : A -> outcome B) : outcome B :=
  match o with
  | Ret a => k a
  | Fault f => Fault f
  end.

(** Reading through a possibly null pointer. *)
Definition deref {A} (p : option A) : outcome A :=
  match p with
  | Some a => Ret a
  | None => Fault NullDeref
  end.

(** [arr[i]] on a heap block of [length xs] slots ([None] is a null array). *)
Definition index {A} (arr : option (list A)) (i : Z) : outcome A :=
  match arr with
  | None => Fault NullDeref
  | Some xs =>
      if i <? 0 then Fault OutOfBounds
      else match xs !! Z.to_nat i with
           | Some x => Ret x
           | None => Fault OutOfBounds
           end
  end.

(** [arr[i] = x] on a heap block of [length xs] slots. *)
Definition store {A} (arr : option (list A)) (i : Z) (x : A)
  : outcome (option (list A)) :=
  match arr with
  | None => Fault NullDeref
  | Some xs =>
      if i <? 0 then Fault OutOfBounds
      else if (Z.to_nat i <? length xs)%nat
           then Ret (Some (<[Z.to_nat i := x]> xs))
           else Fault OutOfBounds
  end.

(** The calls the log records: the destructor and the traversal callback
    applied to a stored value.  The caller's hash and match are pure
    functions of the model; calling them leaves no event. *)
Inductive event : Type :=
  | Destroyed (fn : ptr) (data : ptr)
  | Visited (callback : ptr) (data : ptr).

(** ** The linked list consumed by the table *)

Module Chain.

(** Modelled from the spec: the linked list of list.h / linkedlist.h, which
    chain-hash.c includes, is not part of the sources.  The spec describes it
    as an ordered sequence of values with head/tail/next access, insertion
    after a position, removal of the node after a position, a size query,
    traversal and destruction with a per-element destructor. *)
Record chain : Type := mkChain {
  l_destroy : ptr;
  l_elems : list ptr
}.

(** Modelled from the spec: a [listelmt *] is null or designates the node at
    a position of the sequence. *)
Definition listelmt : Type := option nat.

(** Modelled from the spec: [chain_create(destroy_fn)], null when the
    allocation fails. *)
Definition list_create (alloc_ok : bool) (destroy : ptr) : option chain :=
  if alloc_ok then Some (mkChain destroy []) else None.

(** Modelled from the spec: [chain_size]. *)
Definition list_size (l : chain) : Z := Z.of_nat (length (l_elems l)).

(** Modelled from the spec: [chain_head], null on an empty chain. *)
Definition list_head (l : chain) : listelmt :=
  match l_elems l with
  | [] => None
  | _ :: _ => Some 0%nat
  end.

(** Modelled from the spec: [chain_tail], null on an empty chain. *)
Definition list_tail (l : chain) : listelmt :=
  match length (l_elems l) with
  | O => None
  | S n => Some n
  end.

(** Modelled from the spec: [chain_data], reading the value of a node. *)
Definition list_data (l : chain) (e : listelmt) : outcome ptr :=
  match e with
  | None => Fault NullDeref
  | Some i => match l_elems l !! i with
              | Some x => Ret x
              | None => Fault OutOfBounds
              end
  end.

(** Modelled from the spec: [chain_insert_after(list, pos, value)]; a null
    position inserts at the head; returns 0, or -1 when the node cannot be
    allocated, in which case the chain is untouched. *)
Definition list_insnxt (alloc_ok : bool) (l : chain) (pos : listelmt)
    (data : ptr) : Z * chain :=
  if alloc_ok then
    match pos with
    | None => (0, mkChain (l_destroy l) (data :: l_elems l))
    | Some i =>
        (0, mkChain (l_destroy l)
              (take (S i) (l_elems l) ++ data :: drop (S i) (l_elems l)))
    end
  else (-1, l).

(** Modelled from the spec: [chain_remove_after(list, pos, &out_value)]; a
    null position removes the head; returns 0 and the removed value, or -1
    when there is no node to remove.  The destructor is not involved. *)
Definition list_remnxt (l : chain) (pos : listelmt)
  : Z * chain * option ptr :=
  let i := match pos with None => O | Some p => S p end in
  match l_elems l !! i with
  | Some x => (0, mkChain (l_destroy l) (delete i (l_elems l)), Some x)
  | None => (-1, l, None)
  end.

(** Modelled from the spec: [chain_traverse(list, callback)]. *)
Definition list_traverse (l : chain) (callback : ptr) : list event :=
  map (Visited callback) (l_elems l).

(** Modelled from the spec: [chain_destroy(&list)], invoking the destructor
    on every element if one was supplied. *)
Definition list_destroy (l : chain) : list event :=
  if l_destroy l =? NULL then [] else map (Destroyed (l_destroy l)) (l_elems l).

End Chain.
Import Chain.

(** ** The table *)

(** [struct _CHash_] of chain-hash.h. *)
Record CHash : Type := mkCHash {
  size : Z;
  buckets : Z;
  hash : ptr -> Z;
  match_ : ptr -> ptr -> Z;
  destroy : ptr;
  table : option (list (option chain))
}.

Definition set_size (t : CHash) (n : Z) : CHash :=
  mkCHash n (buckets t) (hash t) (match_ t) (destroy t) (table t).

Definition set_table (t : CHash) (a : option (list (option chain))) : CHash :=
  mkCHash (size t) (buckets t) (hash t) (match_ t) (destroy t) a.

(** The state the API functions run in: the table behind the [CHash *] and
    the callbacks invoked so far. *)
Record state : Type := mkState {
  st_tbl : CHash;
  st_log : list event
}.

Definition M (A : Type) : Type := state -> outcome (A * state).

Definition ret {A} (a : A) : M A := fun s => Ret (a, s).

Definition bind {A B} (m : M A) (k : A -> M B) : M B :=
  fun s => match m s with
           | Ret (a, s') => k a s'
           | Fault f => Fault f
           end.

Definition lift {A} (o : outcome A) : M A :=
  fun s => match o with
           | Ret a => Ret (a, s)
           | Fault f => Fault f
           end.

Definition get_tbl : M CHash := fun s => Ret (st_tbl s, s).

Definition put_tbl (t : CHash) : M unit :=
  fun s => Ret (tt, mkState t (st_log s)).

Definition emit (es : list event) : M unit :=
  fun s => Ret (tt, mkState (st_tbl s) (st_log s ++ es)).

Notation "'let*' x ':=' m 'in' k" := (bind m (fun x => k))
  (at level 10, x pattern, m at level 100, k at level 200).

(** [chash_size] and [chash_isempty], the macros of chain-hash.h. *)
Definition chash_size (t : CHash) : Z := size t.
Definition chash_isempty (t : CHash) : Z := if size t =? 0 then 1 else 0.

(** [tbl->hash(data) % tbl->buckets], stored in an [int]: the [int] hash is
    converted to [unsigned int], the type of [buckets], before the remainder
    is taken. *)
Definition bucket_of (t : CHash) (data : ptr) : outcome Z :=
  if buckets t =? 0 then Fault DivByZero
  else Ret (to_int (to_uint (hash t data) mod buckets t)).

(** *** chash_init *)

(** [calloc] of [nmemb] list pointers: a zeroed block of [nmemb] slots, null
    when the request fails; a negative count converts to a [size_t] too
    large to be served. *)
Definition calloc (alloc_ok : bool) (nmemb : Z) : option (list (option chain)) :=
  if alloc_ok && (0 <=? nmemb) then Some (replicate (Z.to_nat nmemb) None)
  else None.

(** The loop [for (int i = 0; i < size; i++)] of chash_init, with [n]
    iterations left.  The store into [table[i]] precedes the null test. *)
Fixpoint init_loop (lists_ok : Z -> bool) (n : nat) (i : Z) (tbl : CHash)
  : outcome (option CHash) :=
  match n with
  | O => Ret (Some tbl)
  | S n' =>
      let l := list_create (lists_ok i) (destroy tbl) in
      obind (store (table tbl) i l) (fun arr =>
      match l with
      | None => Ret None
      | Some _ => init_loop lists_ok n' (i + 1) (set_table tbl arr)
      end)
  end.

(** chash_init with the number of slots requested from [calloc] left open. *)
Definition chash_init_alloc (nmemb : Z) (tbl_ok arr_ok : bool)
    (lists_ok : Z -> bool) (size : Z) (hash : ptr -> Z)
    (match_ : ptr -> ptr -> Z) (destroy : ptr) : outcome (option CHash) :=
  if tbl_ok then
    init_loop lists_ok (Z.to_nat size) 0
      (mkCHash 0 (to_uint size) hash match_ destroy (calloc arr_ok nmemb))
  else Ret None.

(** chash_init as written: the block requested holds [size - 1] slots.
    [tbl_ok], [arr_ok] and [lists_ok i] tell whether the allocation of the
    record, of the array and of the i-th list succeed. *)
Definition chash_init (tbl_ok arr_ok : bool) (lists_ok : Z -> bool)
    (size : Z) (hash : ptr -> Z) (match_ : ptr -> ptr -> Z) (destroy : ptr)
  : outcome (option CHash) :=
  chash_init_alloc (size - 1) tbl_ok arr_ok lists_ok size hash match_ destroy.

(** *** chash_lookup *)

(** The scan [for (elmt = list_head(..); elmt != NULL; elmt = list_next(elmt))]
    of chash_lookup over the nodes still ahead. *)
Fixpoint lookup_loop (m : ptr -> ptr -> Z) (data : ptr) (rest : list ptr)
  : option ptr :=
  match rest with
  | [] => None
  | x :: rest' => if m data x =? 0 then lookup_loop m data rest' else Some x
  end.

(** chash_lookup: the result and the new content of [*data]. *)
Definition chash_lookup (data : ptr) : M (Z * ptr) :=
  let* tbl := get_tbl in
  if negb (data =? NULL) then
    let* bucket := lift (bucket_of tbl data) in
    let* slot := lift (index (table tbl) bucket) in
    let* l := lift (deref slot) in
    match lookup_loop (match_ tbl) data (l_elems l) with
    | Some x => ret (1, x)
    | None => ret (0, data)
    end
  else
    let* slot := lift (index (table tbl) 0) in
    let* l := lift (deref slot) in
    let* x := lift (list_data l (list_head l)) in
    ret (1, x).

(** *** chash_insert *)

Definition chash_insert (alloc_ok : bool) (data : ptr) : M Z :=
  if data =? NULL then ret (-1)
  else
    let* found := chash_lookup data in
    if negb (fst found =? 0) then ret 1
    else
      let* tbl := get_tbl in
      let* bucket := lift (bucket_of tbl data) in
      let* slot := lift (index (table tbl) bucket) in
      match slot with
      | None => ret (-1)
      | Some tmplist =>
          let r := list_insnxt alloc_ok tmplist (list_tail tmplist) data in
          let* arr := lift (store (table tbl) bucket (Some (snd r))) in
          let* _ := put_tbl (set_table tbl arr) in
          if fst r =? 0 then
            let* _ := put_tbl (set_size (set_table tbl arr)
                                 (to_uint (size tbl + 1))) in
            ret 0
          else ret 0
      end.

(** *** chash_remove *)

(** The scan of chash_remove over the nodes still ahead; [prev] is the node
    before the current one and [i] the position of the current one.  On a
    match the result is the [prev] to hand to list_remnxt. *)
Fixpoint remove_loop (m : ptr -> ptr -> Z) (data : ptr) (prev : listelmt)
    (i : nat) (rest : list ptr) : option listelmt :=
  match rest with
  | [] => None
  | x :: rest' =>
      if m data x =? 0 then remove_loop m data (Some i) (S i) rest'
      else Some prev
  end.

(** The loop [for (i = 0; i < tbl->buckets; i++) if (list_size(..) > 0) break;]
    with [n] iterations left; the result is the final value of [i]. *)
Fixpoint first_nonempty (arr : option (list (option chain))) (n : nat) (i : Z)
  : outcome Z :=
  match n with
  | O => Ret i
  | S n' =>
      obind (index arr i) (fun slot =>
      obind (deref slot) (fun l =>
      if list_size l >? 0 then Ret i else first_nonempty arr n' (i + 1)))
  end.

(** [list_remnxt(tbl->table[bucket], prev, data); tbl->size--; return 0;],
    the tail shared by both modes of chash_remove. *)
Definition remove_after (bucket : Z) (prev : listelmt) (data : ptr)
  : M (Z * ptr) :=
  let* tbl := get_tbl in
  let* slot := lift (index (table tbl) bucket) in
  let* l := lift (deref slot) in
  let r := list_remnxt l prev in
  let* arr := lift (store (table tbl) bucket (Some (snd (fst r)))) in
  let* _ := put_tbl (set_size (set_table tbl arr) (to_uint (size tbl - 1))) in
  ret (0, match snd r with Some x => x | None => data end).

(** chash_remove: the result and the new content of [*data]. *)
Definition chash_remove (data : ptr) : M (Z * ptr) :=
  let* tbl := get_tbl in
  if size tbl =? 0 then ret (-1, data)
  else if negb (data =? NULL) then
    let* bucket := lift (bucket_of tbl data) in
    let* slot := lift (index (table tbl) bucket) in
    let* l := lift (deref slot) in
    match remove_loop (match_ tbl) data None 0 (l_elems l) with
    | Some prev => remove_after bucket prev data
    | None => ret (-1, data)
    end
  else
    let* i := lift (first_nonempty (table tbl) (Z.to_nat (buckets tbl)) 0) in
    remove_after i None data.

(** *** chash_traverse and chash_destroy *)

(** The loops [for (int i = 0; i < tbl->buckets; i++)] of chash_traverse and
    chash_destroy, applying a list function to every bucket in turn. *)
Fixpoint each_bucket (f : chain -> list event)
    (arr : option (list (option chain))) (n : nat) (i : Z)
  : outcome (list event) :=
  match n with
  | O => Ret []
  | S n' =>
      obind (index arr i) (fun slot =>
      obind (deref slot) (fun l =>
      obind (each_bucket f arr n' (i + 1)) (fun es => Ret (f l ++ es))))
  end.

Definition chash_traverse (callback : ptr) : M unit :=
  let* tbl := get_tbl in
  let* es := lift (each_bucket (fun l => list_traverse l callback)
                     (table tbl) (Z.to_nat (buckets tbl)) 0) in
  emit es.

(** chash_destroy; the record is freed at the end, so the table left in the
    state must not be used again. *)
Definition chash_destroy : M unit :=
  let* tbl := get_tbl in
  let* es := lift (each_bucket list_destroy
                     (table tbl) (Z.to_nat (buckets tbl)) 0) in
  emit es.

(** ** Representation predicates *)

(** The bucket index as a number: the hash reduced modulo 2^32, then modulo
    the bucket count. *)
Definition bidx (t : CHash) (data : ptr) : Z :=
  to_uint (hash t data) mod buckets t.

(** The bucket array of [t] is a block of exactly [buckets t] non-null
    slots, holding the chains [cs]. *)
Definition holds (t : CHash) (cs : list chain) : Prop :=
  table t = Some (Some <$> cs) /\ Z.of_nat (length cs) = buckets t.

(** A table whose fields have the values their C types allow and whose
    bucket array is complete. *)
Record wf (t : CHash) : Prop := mkWf {
  wf_size : 0 <= size t < UINT_MODULUS;
  wf_buckets : 0 < buckets t <= INT_MAX;
  wf_holds : exists cs, holds t cs
}.

(** The values a full traversal visits: every chain in bucket order. *)
Definition values (cs : list chain) : list ptr := concat (l_elems <$> cs).

Definition stored (t : CHash) : list ptr :=
  match table t with
  | Some slots => concat ((fun slot => from_option l_elems [] slot) <$> slots)
  | None => []
  end.

(** The sum of the lengths of all bucket chains. *)
Definition chain_total (t : CHash) : Z := Z.of_nat (length (stored t)).

(** The value [x] sits at position [i] of the chain of bucket [b]. *)
Definition stored_at (t : CHash) (b i : nat) (x : ptr) : Prop :=
  exists slots l,
    table t = Some slots /\ slots !! b = Some (Some l) /\ l_elems l !! i = Some x.

(** [hash] and [match] agree: values that match have the same hash. *)
Definition consistent (t : CHash) : Prop :=
  forall a b, match_ t a b <> 0 -> hash t a = hash t b.

(** [match] is an equivalence predicate. *)
Record match_equiv (t : CHash) : Prop := mkMatchEquiv {
  match_refl : forall a, match_ t a a <> 0;
  match_sym : forall a b, match_ t a b <> 0 -> match_ t b a <> 0;
  match_trans : forall a b c,
    match_ t a b <> 0 -> match_ t b c <> 0 -> match_ t a c <> 0
}.

(** No element of a chain is matched by an element behind it. *)
Fixpoint later_unmatched (m : ptr -> ptr -> Z) (l : list ptr) : Prop :=
  match l with
  | [] => True
  | x :: r => Forall (fun y => m y x = 0) r /\ later_unmatched m r
  end.

(** The position list_remnxt removes when handed [prev]. *)
Definition target (prev : listelmt) : nat :=
  match prev with
  | None => O
  | Some p => S p
  end.

(** The bucket array of [t] is the block chash_init obtains from calloc:
    [buckets t - 1] slots, all non-null, holding the chains [cs]. *)
Definition block (t : CHash) (cs : list chain) : Prop :=
  table t = Some (Some <$> cs) /\ Z.of_nat (length cs) = buckets t - 1.

(** The invariant the operations maintain. *)
Record inv (t : CHash) (cs : list chain) : Prop := mkInv {
  inv_buckets : 0 < buckets t <= INT_MAX;
  inv_block : block t cs;
  inv_size : size t = to_uint (Z.of_nat (length (values cs)));
  inv_place : forall b l x,
    cs !! b = Some l -> x ∈ l_elems l -> bidx t x = Z.of_nat b;
  inv_order : forall b l,
    cs !! b = Some l -> later_unmatched (match_ t) (l_elems l)
}.

(** The caller's functions and the bucket count of [t'] are those of [t]. *)
Definition same_fns (t t' : CHash) : Prop :=
  match_ t' = match_ t /\ hash t' = hash t /\
  buckets t' = buckets t /\ destroy t' = destroy t.

(** ** Reachable tables *)

(** The record chash_init fills in at lines 75-81 when the allocations
    succeed: size 0, the bucket count, the caller's functions and the block
    of [n - 1] slots that calloc hands back. *)
Definition init_record (n : Z) (h : ptr -> Z) (m : ptr -> ptr -> Z) (d : ptr)
  : CHash :=
  mkCHash 0 (to_uint n) h m d (calloc true (n - 1)).

(** Construction.  For a positive [n] chash_init asks calloc for [n - 1]
    slots and its loop makes [n] stores: the first [n - 1] fill the block
    and the last one lies outside it.  The table the caller is left with is
    the one the loop has built when it reaches that store: the record of
    lines 75-81 after the [n - 1] iterations that stay inside the block. *)
Inductive constructed : CHash -> Prop :=
  | constructed_by (n : Z) (lists_ok : Z -> bool) h m d t :
      0 < n <= INT_MAX ->
      init_loop lists_ok (Z.to_nat (n - 1)) 0 (init_record n h m d)
      = Ret (Some t) ->
      constructed t.

(** One insert or remove that returns to its caller. *)
Inductive step (t t' : CHash) : Prop :=
  | step_insert ok v log r log' :
      chash_insert ok v (mkState t log) = Ret (r, mkState t' log') ->
      step t t'
  | step_remove v log r log' :
      chash_remove v (mkState t log) = Ret (r, mkState t' log') ->
      step t t'.


(** ** Caller functions and tables used in the examples *)

(** A hash and a match on the address itself. *)
Definition addr_hash (p : ptr) : Z := to_int p.
Definition addr_match (a b : ptr) : Z := if a =? b then 1 else 0.

(** A table with [n] empty chains in a block of [n] slots. *)
Definition fresh (n : Z) (h : ptr -> Z) (m : ptr -> ptr -> Z) (d : ptr) : CHash :=
  mkCHash 0 (to_uint n) h m d
    (Some (replicate (Z.to_nat n) (Some (mkChain d [])))).



(** The scenario of the spec: four buckets, then 1, 5 and 9 inserted; all
    three fall into bucket 1. *)
Definition demo0 : CHash := fresh 4 addr_hash addr_match NULL.
Definition demo_chains (l : list ptr) : list chain :=
  [mkChain NULL []; mkChain NULL l; mkChain NULL []; mkChain NULL []].
Definition demo (l : list ptr) : CHash :=
  mkCHash (Z.of_nat (length l)) 4 addr_hash addr_match NULL
    (Some (Some <$> demo_chains l)).

(** The same scenario on the table chash_init builds for five buckets, a
    block of four slots: 1, 6 and 11 all fall into bucket 1. *)
Definition built_demo (l : list ptr) : CHash :=
  mkCHash (Z.of_nat (length l)) 5 addr_hash addr_match NULL
    (Some (Some <$> demo_chains l)).

(** A complete four-bucket table created with the destructor at address
    99, holding the value 6 in bucket 2. *)
Definition owned_chains : list chain :=
  [mkChain 99 []; mkChain 99 []; mkChain 99 [6]; mkChain 99 []].
Definition owned_demo : CHash :=
  mkCHash 1 4 addr_hash addr_match 99 (Some (Some <$> owned_chains)).

(** The table [t] with element count [sz] and chain [l] in bucket [n] of
    the chains [cs]. *)
Definition with_chain (t : CHash) (cs : list chain) (n : nat) (l : chain)
    (sz : Z) : CHash :=
  mkCHash sz (buckets t) (hash t) (match_ t) (destroy t)
    (Some (Some <$> <[n := l]> cs)).

(** ** The debug harness *)

(** [hash_func] and [match_func], the static functions the debug [main]
    hands to the table: both read the [int] behind the pointer; [mem] gives
    the [int] stored at each address. *)
Definition hash_func (mem : ptr -> Z) (data : ptr) : Z := mem data.
Definition match_func (mem : ptr -> Z) (data1 data2 : ptr) : Z :=
  if mem data1 =? mem data2 then 1 else 0.

(** How the removal loop of [main] ends: the table is empty, error_exit was
    called, or the iterations allowed ran out; with the pointers printed. *)
Inductive loop_end : Type :=
  | Drained (printed : list ptr)
  | ErrorExit (printed : list ptr)
  | Unfinished (printed : list ptr).

(** The loop [while (!chash_isempty(hash))] of [main]: [pInt = NULL], then
    chash_remove, error_exit on a negative result, then a printf that reads
    [*pInt]. *)
Fixpoint main_remove_loop (fuel : nat) (printed : list ptr) : M loop_end :=
  match fuel with
  | O =>
      let* tbl := get_tbl in
      if chash_isempty tbl =? 0 then ret (Unfinished printed)
      else ret (Drained printed)
  | S fuel' =>
      let* tbl := get_tbl in
      if chash_isempty tbl =? 0 then
        let* r := chash_remove NULL in
        if fst r <? 0 then ret (ErrorExit printed)
        else if snd r =? NULL then lift (Fault NullDeref)
        else main_remove_loop fuel' (printed ++ [snd r])
      else ret (Drained printed)
  end.

(** ** Further predicates *)

(** The first [k] list allocations of chash_init, from index [i], succeed. *)
Fixpoint all_ok (lists_ok : Z -> bool) (k : nat) (i : Z) : bool :=
  match k with
  | O => true
  | S k' => lists_ok i && all_ok lists_ok k' (i + 1)
  end.


(** * Properties *)

(** ** C integers *)


Lemma to_uint_small x : 0 <= x < UINT_MODULUS -> to_uint x = x.
Proof. intros H. unfold to_uint. apply Z.mod_small. exact H. Qed.

Lemma to_int_small x : 0 <= x <= INT_MAX -> to_int x = x.
Proof.
  intros H. unfold to_int. rewrite to_uint_small.
  - destruct (Z.leb_spec x INT_MAX); lia.
  - unfold INT_MAX, UINT_MODULUS in *. lia.
Qed.




(** ** Array accesses on a complete bucket array *)

Lemma bucket_of_bidx t v :
  0 < buckets t <= INT_MAX ->
  bucket_of t v = Ret (bidx t v) /\ 0 <= bidx t v < buckets t.
Proof.
  intros H. unfold bucket_of, bidx.
  assert (0 <= to_uint (hash t v) mod buckets t < buckets t) as Hm
    by (apply Z.mod_pos_bound; lia).
  destruct (Z.eqb_spec (buckets t) 0) as [E|_]; [lia|].
  rewrite to_int_small by lia. split; [reflexivity | exact Hm].
Qed.

Lemma index_some (cs : list chain) (b : Z) l :
  0 <= b -> cs !! Z.to_nat b = Some l ->
  index (Some (Some <$> cs)) b = Ret (Some l).
Proof.
  intros Hb Hl. unfold index.
  destruct (Z.ltb_spec b 0) as [?|_]; [lia|].
  rewrite list_lookup_fmap, Hl. reflexivity.
Qed.

Lemma store_some (cs : list chain) (b : Z) l l' :
  0 <= b -> cs !! Z.to_nat b = Some l ->
  store (Some (Some <$> cs)) b (Some l')
  = Ret (Some (Some <$> <[Z.to_nat b := l']> cs)).
Proof.
  intros Hb Hl. unfold store.
  destruct (Z.ltb_spec b 0) as [?|_]; [lia|].
  apply lookup_lt_Some in Hl.
  rewrite length_fmap.
  destruct (Nat.ltb_spec (Z.to_nat b) (length cs)) as [_|?]; [|lia].
  rewrite list_fmap_insert. reflexivity.
Qed.

Lemma holds_lookup t cs b :
  holds t cs -> 0 <= b < buckets t -> exists l, cs !! Z.to_nat b = Some l.
Proof.
  intros [_ Hlen] Hb.
  destruct (lookup_lt_is_Some_2 cs (Z.to_nat b)) as [l Hl]; [lia|].
  exists l. exact Hl.
Qed.

Lemma holds_unique t cs cs' : holds t cs -> holds t cs' -> cs = cs'.
Proof.
  intros [H1 _] [H2 _]. rewrite H1 in H2. injection H2 as H2. clear H1.
  revert cs' H2. induction cs as [|c cs IH]; intros [|c' cs'] H2;
    simpl in H2; try discriminate; [reflexivity|].
  injection H2 as -> H2. f_equal. apply IH. exact H2.
Qed.

Lemma set_table_id t : set_table t (table t) = t.
Proof. destruct t. reflexivity. Qed.

(** ** The scans *)

Lemma lookup_loop_none m v l :
  lookup_loop m v l = None <-> Forall (fun x => m v x = 0) l.
Proof.
  induction l as [|x l IH]; simpl.
  - split; [constructor | reflexivity].
  - destruct (Z.eqb_spec (m v x) 0) as [E|E].
    + rewrite IH. split.
      * intros H. constructor; assumption.
      * intros H. inversion H; assumption.
    + split; [discriminate|]. intros H. inversion H. contradiction.
Qed.

Lemma lookup_loop_some m v l s :
  lookup_loop m v l = Some s ->
  exists pre post,
    l = pre ++ s :: post /\ Forall (fun x => m v x = 0) pre /\ m v s <> 0.
Proof.
  induction l as [|x l IH]; simpl; [discriminate|].
  destruct (Z.eqb_spec (m v x) 0) as [E|E].
  - intros H. destruct (IH H) as (pre & post & -> & Hpre & Hs).
    exists (x :: pre), post. repeat split; [constructor; assumption | exact Hs].
  - intros [= ->]. exists [], l. repeat split; [constructor | exact E].
Qed.

Lemma scan_cases (m : ptr -> ptr -> Z) (v : ptr) (l : list ptr) :
  Forall (fun x => m v x = 0) l \/
  exists pre s post,
    l = pre ++ s :: post /\ Forall (fun x => m v x = 0) pre /\ m v s <> 0.
Proof.
  destruct (lookup_loop m v l) as [s|] eqn:E.
  - right. apply lookup_loop_some in E as (pre & post & H).
    exists pre, s, post. exact H.
  - left. apply lookup_loop_none. exact E.
Qed.

Lemma lookup_loop_found m v pre s post :
  Forall (fun x => m v x = 0) pre -> m v s <> 0 ->
  lookup_loop m v (pre ++ s :: post) = Some s.
Proof.
  intros Hpre Hs. induction Hpre as [|x pre Hx _ IH]; simpl.
  - destruct (Z.eqb_spec (m v s) 0); [contradiction | reflexivity].
  - rewrite Hx. simpl. exact IH.
Qed.

Lemma remove_loop_none m v l : forall prev i,
  remove_loop m v prev i l = None <-> Forall (fun x => m v x = 0) l.
Proof.
  induction l as [|x l IH]; intros prev i; simpl.
  - split; [constructor | reflexivity].
  - destruct (Z.eqb_spec (m v x) 0) as [E|E].
    + rewrite IH. split.
      * intros H. constructor; assumption.
      * intros H. inversion H; assumption.
    + split; [discriminate|]. intros H. inversion H. contradiction.
Qed.

Lemma remove_loop_found m v pre s post :
  Forall (fun x => m v x = 0) pre -> m v s <> 0 ->
  forall prev i, target prev = i ->
  exists prev',
    remove_loop m v prev i (pre ++ s :: post) = Some prev' /\
    target prev' = (i + length pre)%nat.
Proof.
  intros Hpre Hs. induction Hpre as [|x pre Hx _ IH]; intros prev i Hi; simpl.
  - destruct (Z.eqb_spec (m v s) 0); [contradiction|].
    exists prev. split; [reflexivity | lia].
  - rewrite Hx. simpl.
    destruct (IH (Some i) (S i) eq_refl) as (prev' & Hr & Ht).
    exists prev'. split; [exact Hr | lia].
Qed.

(** ** The list operations the table relies on *)

Lemma list_insnxt_tail l v :
  list_insnxt true l (list_tail l) v
  = (0, mkChain (l_destroy l) (l_elems l ++ [v])).
Proof.
  unfold list_insnxt, list_tail.
  destruct (length (l_elems l)) as [|n] eqn:E.
  - apply length_zero_iff_nil in E. rewrite E. reflexivity.
  - rewrite take_ge, drop_ge by lia. reflexivity.
Qed.

Lemma list_remnxt_at l prev pre s post :
  l_elems l = pre ++ s :: post -> target prev = length pre ->
  list_remnxt l prev = (0, mkChain (l_destroy l) (pre ++ post), Some s).
Proof.
  intros El Ht. unfold list_remnxt. fold (target prev). rewrite Ht, El.
  rewrite list_lookup_middle by reflexivity.
  rewrite delete_middle. reflexivity.
Qed.

Lemma first_nonempty_spec (cs : list chain) : forall n k,
  (k + n = length cs)%nat ->
  (exists j l, (k <= j)%nat /\ cs !! j = Some l /\ l_elems l <> []) ->
  exists j l,
    first_nonempty (Some (Some <$> cs)) n (Z.of_nat k) = Ret (Z.of_nat j) /\
    (k <= j)%nat /\ cs !! j = Some l /\ l_elems l <> [] /\
    (forall j' l', (k <= j' < j)%nat -> cs !! j' = Some l' -> l_elems l' = []).
Proof.
  induction n as [|n IH]; intros k Hk (j & l & Hj & Hl & Hne).
  - apply lookup_lt_Some in Hl. lia.
  - destruct (lookup_lt_is_Some_2 cs k) as [c Hc]; [lia|].
    cbn [first_nonempty].
    rewrite (index_some cs (Z.of_nat k) c) by (rewrite ?Nat2Z.id; first [lia | exact Hc]).
    cbn [obind deref]. unfold list_size.
    destruct (l_elems c) as [|x r] eqn:Ec.
    + simpl.
      replace (Z.of_nat k + 1) with (Z.of_nat (S k)) by lia.
      destruct (IH (S k)) as (j1 & l1 & Hr & Hj1 & Hl1 & Hne1 & Hmin); [lia| |].
      * exists j, l. split; [|split; assumption].
        destruct (decide (j = k)) as [->|]; [|lia].
        rewrite Hc in Hl. injection Hl as ->. contradiction.
      * exists j1, l1. repeat split; try assumption; [lia|].
        intros j' l' Hj' Hl'.
        destruct (decide (j' = k)) as [->|].
        -- rewrite Hc in Hl'. injection Hl' as <-. exact Ec.
        -- apply (Hmin j' l'); [lia | exact Hl'].
    + exists k, c. simpl length.
      destruct (Z.gtb_spec (Z.of_nat (S (length r))) 0) as [_|?]; [|lia].
      repeat split; [lia | exact Hc | rewrite Ec; discriminate |].
      intros j' l' Hj'. lia.
Qed.

(** ** What each operation computes on a complete table *)

Ltac run_monad :=
  unfold bind, lift, get_tbl, put_tbl, ret; cbn [st_tbl st_log fst snd].

Lemma chash_lookup_run t cs log v l :
  0 < buckets t <= INT_MAX -> holds t cs -> v <> NULL ->
  cs !! Z.to_nat (bidx t v) = Some l ->
  chash_lookup v (mkState t log)
  = Ret (match lookup_loop (match_ t) v (l_elems l) with
         | Some x => (1, x)
         | None => (0, v)
         end, mkState t log).
Proof.
  intros Hb [Ht _] Hv Hl. unfold chash_lookup. run_monad.
  destruct (Z.eqb_spec v NULL) as [?|_]; [contradiction|]. cbn [negb].
  destruct (bucket_of_bidx t v Hb) as [-> Hr].
  rewrite Ht, (index_some cs _ l) by (first [lia | exact Hl]).
  cbn [deref]. destruct (lookup_loop _ _ _); reflexivity.
Qed.

Lemma chash_lookup_null_run t cs log l :
  holds t cs -> cs !! 0%nat = Some l ->
  chash_lookup NULL (mkState t log)
  = match l_elems l with
    | [] => Fault NullDeref
    | x :: _ => Ret ((1, x), mkState t log)
    end.
Proof.
  intros [Ht _] Hl. unfold chash_lookup. run_monad. cbn [Z.eqb NULL negb].
  rewrite Ht, (index_some cs 0 l) by (first [lia | exact Hl]).
  cbn [deref]. unfold list_data, list_head.
  destruct (l_elems l); reflexivity.
Qed.

Lemma chash_insert_run ok t cs log v l :
  0 < buckets t <= INT_MAX -> holds t cs -> v <> NULL ->
  cs !! Z.to_nat (bidx t v) = Some l ->
  chash_insert ok v (mkState t log)
  = Ret (match lookup_loop (match_ t) v (l_elems l) with
         | Some _ => (1, mkState t log)
         | None =>
             if ok
             then (0, mkState (with_chain t cs (Z.to_nat (bidx t v))
                                 (mkChain (l_destroy l) (l_elems l ++ [v]))
                                 (to_uint (size t + 1))) log)
             else (0, mkState t log)
         end).
Proof.
  intros Hb Hh Hv Hl. unfold chash_insert.
  destruct (Z.eqb_spec v NULL) as [?|_]; [contradiction|].
  unfold bind at 1. rewrite (chash_lookup_run t cs log v l) by assumption.
  destruct (lookup_loop _ _ _) as [s|]; cbn [fst Z.eqb negb]; [reflexivity|].
  run_monad. destruct Hh as [Ht _].
  destruct (bucket_of_bidx t v Hb) as [-> Hr].
  rewrite Ht, (index_some cs _ l) by (first [lia | exact Hl]).
  destruct ok.
  - rewrite list_insnxt_tail. cbn [fst snd table set_table].
    rewrite (store_some cs _ l) by (first [lia | exact Hl]).
    reflexivity.
  - unfold list_insnxt. cbn [fst snd table set_table].
    rewrite (store_some cs _ l) by (first [lia | exact Hl]).
    cbn [Z.eqb]. rewrite list_insert_id by exact Hl.
    rewrite <- Ht, set_table_id. reflexivity.
Qed.

Lemma remove_after_run t cs log (b : Z) l prev pre s post data :
  table t = Some (Some <$> cs) -> 0 <= b ->
  cs !! Z.to_nat b = Some l ->
  l_elems l = pre ++ s :: post -> target prev = length pre ->
  remove_after b prev data (mkState t log)
  = Ret ((0, s),
         mkState (with_chain t cs (Z.to_nat b)
                    (mkChain (l_destroy l) (pre ++ post))
                    (to_uint (size t - 1))) log).
Proof.
  intros Ht Hb Hl El Hp. unfold remove_after. run_monad.
  rewrite Ht, (index_some cs b l) by assumption. cbn [deref].
  rewrite (list_remnxt_at l prev pre s post El Hp). cbn [fst snd].
  rewrite (store_some cs b l) by assumption. reflexivity.
Qed.

Lemma chash_remove_empty data s :
  size (st_tbl s) = 0 -> chash_remove data s = Ret ((-1, data), s).
Proof.
  intros H. unfold chash_remove. run_monad. rewrite H. reflexivity.
Qed.

Lemma chash_remove_found t cs log v l pre s post :
  size t <> 0 -> 0 < buckets t <= INT_MAX -> holds t cs -> v <> NULL ->
  cs !! Z.to_nat (bidx t v) = Some l ->
  l_elems l = pre ++ s :: post ->
  Forall (fun x => match_ t v x = 0) pre -> match_ t v s <> 0 ->
  chash_remove v (mkState t log)
  = Ret ((0, s),
         mkState (with_chain t cs (Z.to_nat (bidx t v))
                    (mkChain (l_destroy l) (pre ++ post))
                    (to_uint (size t - 1))) log).
Proof.
  intros Hs Hb [Ht _] Hv Hl El Hpre Hm. unfold chash_remove.
  unfold bind at 1, get_tbl. cbn [st_tbl].
  destruct (Z.eqb_spec (size t) 0) as [?|_]; [contradiction|].
  destruct (Z.eqb_spec v NULL) as [?|_]; [contradiction|]. cbn [negb].
  destruct (bucket_of_bidx t v Hb) as [Eb Hr].
  destruct (remove_loop_found (match_ t) v pre s post Hpre Hm None 0%nat eq_refl)
    as (prev & Hloop & Hprev).
  unfold bind at 1, lift at 1. rewrite Eb.
  unfold bind at 1, lift at 1. cbn [st_tbl].
  rewrite Ht, (index_some cs _ l) by (first [lia | exact Hl]).
  unfold bind at 1, lift at 1. cbn [deref].
  rewrite El, Hloop.
  apply (remove_after_run t cs log _ l prev pre s post);
    first [assumption | lia].
Qed.

Lemma chash_remove_missing t cs log v l :
  size t <> 0 -> 0 < buckets t <= INT_MAX -> holds t cs -> v <> NULL ->
  cs !! Z.to_nat (bidx t v) = Some l ->
  Forall (fun x => match_ t v x = 0) (l_elems l) ->
  chash_remove v (mkState t log) = Ret ((-1, v), mkState t log).
Proof.
  intros Hs Hb [Ht _] Hv Hl Hall. unfold chash_remove. run_monad.
  destruct (Z.eqb_spec (size t) 0) as [?|_]; [contradiction|].
  destruct (Z.eqb_spec v NULL) as [?|_]; [contradiction|]. cbn [negb].
  destruct (bucket_of_bidx t v Hb) as [-> Hr].
  rewrite Ht, (index_some cs _ l) by (first [lia | exact Hl]).
  cbn [deref].
  apply (remove_loop_none _ _ _ None 0%nat) in Hall. rewrite Hall.
  reflexivity.
Qed.

Lemma chash_remove_null_run t cs log :
  size t <> 0 -> holds t cs ->
  (exists j l, cs !! j = Some l /\ l_elems l <> []) ->
  exists j l x rest,
    cs !! j = Some l /\ l_elems l = x :: rest /\
    (forall j' l', (j' < j)%nat -> cs !! j' = Some l' -> l_elems l' = []) /\
    chash_remove NULL (mkState t log)
    = Ret ((0, x),
           mkState (with_chain t cs j (mkChain (l_destroy l) rest)
                      (to_uint (size t - 1))) log).
Proof.
  intros Hs [Ht Hlen] (j0 & l0 & Hl0 & Hne0).
  destruct (first_nonempty_spec cs (length cs) 0%nat eq_refl)
    as (j & l & Hr & _ & Hl & Hne & Hmin).
  { exists j0, l0. repeat split; [lia | exact Hl0 | exact Hne0]. }
  destruct (l_elems l) as [|x rest] eqn:El; [contradiction|].
  exists j, l, x, rest. repeat split; [exact Hl | exact El | |].
  - intros j' l' Hj'. apply Hmin. lia.
  - unfold chash_remove. unfold bind at 1, get_tbl. cbn [st_tbl].
    destruct (Z.eqb_spec (size t) 0) as [?|_]; [contradiction|].
    cbn [Z.eqb NULL negb].
    unfold bind at 1, lift at 1. cbn [st_tbl].
    rewrite Ht, <- Hlen, Nat2Z.id. change 0 with (Z.of_nat 0) at 1.
    rewrite Hr.
    rewrite (remove_after_run t cs log (Z.of_nat j) l None [] x rest);
      rewrite ?Nat2Z.id; first [reflexivity | assumption | lia].
Qed.

(** ** The operations on a table whose block holds the chains [cs] *)












(** ** The values of a table *)

Lemma stored_holds t cs : table t = Some (Some <$> cs) -> stored t = values cs.
Proof.
  intros Ht. unfold stored, values. rewrite Ht. f_equal. clear Ht.
  induction cs as [|c cs IH]; [reflexivity|].
  cbn [fmap list_fmap from_option] in *. f_equal. exact IH.
Qed.

Lemma values_cons c cs : values (c :: cs) = l_elems c ++ values cs.
Proof. reflexivity. Qed.


Lemma values_nonempty (cs : list chain) :
  values cs <> [] -> exists j l, cs !! j = Some l /\ l_elems l <> [].
Proof.
  induction cs as [|c cs IH]; intros H; [contradiction|].
  destruct (l_elems c) as [|x r] eqn:Ec.
  - rewrite values_cons, Ec in H. destruct (IH H) as (j & l & Hl & Hne).
    exists (S j), l. split; assumption.
  - exists 0%nat, c. split; [reflexivity | rewrite Ec; discriminate].
Qed.


(** ** The order invariant of a chain *)




(** ** Construction *)

Lemma store_next (done rest : list (option chain)) x y :
  store (Some (done ++ x :: rest)) (Z.of_nat (length done)) y
  = Ret (Some ((done ++ [y]) ++ rest)).
Proof.
  unfold store.
  destruct (Z.ltb_spec (Z.of_nat (length done)) 0) as [?|_]; [lia|].
  rewrite Nat2Z.id, length_app. cbn [length].
  destruct (Nat.ltb_spec (length done) (length done + S (length rest)))
    as [_|?]; [|lia].
  rewrite insert_app_r_alt, Nat.sub_diag by lia.
  rewrite <- app_assoc. reflexivity.
Qed.

Lemma init_loop_result lists_ok : forall n tbl done t,
  table tbl = Some (done ++ replicate n None) ->
  init_loop lists_ok n (Z.of_nat (length done)) tbl = Ret (Some t) ->
  t = set_table tbl
        (Some (done ++ replicate n (Some (mkChain (destroy tbl) [])))).
Proof.
  induction n as [|n IH]; intros tbl done t Ht Hrun.
  - cbn [init_loop replicate] in *. injection Hrun as <-.
    rewrite <- Ht. symmetry. apply set_table_id.
  - cbn [init_loop replicate] in *. rewrite Ht, store_next in Hrun.
    cbn [obind] in Hrun. unfold list_create in Hrun.
    destruct (lists_ok (Z.of_nat (length done))); [|discriminate].
    replace (Z.of_nat (length done) + 1)
      with (Z.of_nat (length (done ++ [Some (mkChain (destroy tbl) [])])))
      in Hrun by (rewrite length_app; cbn [length]; lia).
    apply IH in Hrun; [|reflexivity].
    rewrite Hrun. unfold set_table. cbn [size buckets hash match_ destroy].
    rewrite <- app_assoc. reflexivity.
Qed.


Lemma init_loop_split lists_ok : forall a b i tbl,
  init_loop lists_ok (a + b) i tbl
  = obind (init_loop lists_ok a i tbl) (fun o =>
      match o with
      | Some t => init_loop lists_ok b (i + Z.of_nat a) t
      | None => Ret None
      end).
Proof.
  induction a as [|a IH]; intros b i tbl.
  - cbn [init_loop obind Nat.add]. rewrite Z.add_0_r. reflexivity.
  - change (S a + b)%nat with (S (a + b)). cbn [init_loop].
    destruct (store (table tbl) i _) as [arr|]; [|reflexivity].
    cbn [obind]. destruct (list_create _ _); [|reflexivity].
    rewrite IH. replace (i + 1 + Z.of_nat a) with (i + Z.of_nat (S a)) by lia.
    reflexivity.
Qed.



(** The link to chash_init: with the record and the array allocated, the
    call runs its first [n - 1] iterations, which build a constructed table
    unless a list allocation fails, and then makes the store that leaves
    the block. *)
Lemma chash_init_then_overrun lists_ok n h m d :
  0 < n <= INT_MAX ->
  chash_init true true lists_ok n h m d
  = obind (init_loop lists_ok (Z.to_nat (n - 1)) 0 (init_record n h m d))
      (fun o => match o with
                | Some t => init_loop lists_ok 1 (n - 1) t
                | None => Ret None
                end) /\
  forall t,
    init_loop lists_ok (Z.to_nat (n - 1)) 0 (init_record n h m d) = Ret (Some t) ->
    constructed t /\ init_loop lists_ok 1 (n - 1) t = Fault OutOfBounds.
Proof.
  intros Hn. split.
  - unfold chash_init, chash_init_alloc. fold (init_record n h m d).
    replace (Z.to_nat n) with (Z.to_nat (n - 1) + 1)%nat by lia.
    rewrite init_loop_split. rewrite Z.add_0_l, Z2Nat.id by lia. reflexivity.
  - intros t Hrun. split; [apply (constructed_by n lists_ok h m d t Hn Hrun)|].
    pose proof Hrun as Hrun'. unfold init_record, calloc in Hrun'.
    destruct (Z.leb_spec 0 (n - 1)) as [_|?]; [|lia]. cbn [andb] in Hrun'.
    apply (init_loop_result lists_ok (Z.to_nat (n - 1)) _ []) in Hrun';
      [|reflexivity].
    rewrite Hrun'. cbn [init_loop set_table table app]. unfold store.
    destruct (Z.ltb_spec (n - 1) 0) as [?|_]; [lia|].
    rewrite length_replicate, Nat.ltb_irrefl. reflexivity.
Qed.



(** ** The invariant is kept by insert and remove *)


Lemma inv_bidx_nat t cs v l :
  inv t cs -> cs !! Z.to_nat (bidx t v) = Some l ->
  bidx t v = Z.of_nat (Z.to_nat (bidx t v)).
Proof.
  intros Hi _. destruct (bucket_of_bidx t v (inv_buckets _ _ Hi)) as [_ H]. lia.
Qed.












(** * Behaviour of the API *)

(** ** Construction *)

Lemma init_loop_short lists_ok : forall n tbl done k t,
  table tbl = Some (done ++ replicate k None) -> (k < n)%nat ->
  init_loop lists_ok n (Z.of_nat (length done)) tbl <> Ret (Some t).
Proof.
  induction n as [|n IH]; intros tbl done k t Ht Hk; [lia|].
  cbn [init_loop]. rewrite Ht. destruct k as [|k]; cbn [replicate].
  - unfold store. rewrite app_nil_r, Nat2Z.id.
    destruct (Z.ltb_spec (Z.of_nat (length done)) 0) as [?|_]; [lia|].
    rewrite Nat.ltb_irrefl. discriminate.
  - rewrite store_next. cbn [obind].
    destruct (list_create _ _) as [c|]; [|discriminate].
    replace (Z.of_nat (length done) + 1)
      with (Z.of_nat (length (done ++ [Some c])))
      by (rewrite length_app; cbn [length]; lia).
    apply (IH _ _ k); [reflexivity | lia].
Qed.

Lemma chash_init_no_table tbl_ok arr_ok lists_ok sz h m d t :
  0 < sz -> chash_init tbl_ok arr_ok lists_ok sz h m d <> Ret (Some t).
Proof.
  intros Hsz. unfold chash_init, chash_init_alloc.
  destruct tbl_ok; [|discriminate]. unfold calloc.
  destruct (arr_ok && (0 <=? sz - 1)) eqn:E.
  - apply (init_loop_short lists_ok (Z.to_nat sz) _ [] (Z.to_nat (sz - 1)));
      [reflexivity | lia].
  - destruct (Z.to_nat sz) as [|n] eqn:En; [lia|]. cbn. discriminate.
Qed.

(** C1: chash_init(4, ..) with every allocation succeeding requests a block
    of 4 - 1 = 3 list slots from calloc and then stores four lists; the
    store into slot 3 lies outside the block, so the call does not return a
    table whose bucket array has 4 slots. *)
Theorem C1_chash_init_block_one_short :
  calloc true (4 - 1) = Some [None; None; None] /\
  chash_init true true (fun _ => true) 4 addr_hash addr_match NULL
  = Fault OutOfBounds.
Proof. split; reflexivity. Qed.

(** ** Insert *)

Lemma chash_insert_append_fails t cs log v l :
  0 < buckets t <= INT_MAX -> holds t cs -> v <> NULL ->
  cs !! Z.to_nat (bidx t v) = Some l ->
  Forall (fun x => match_ t v x = 0) (l_elems l) ->
  chash_insert false v (mkState t log) = Ret (0, mkState t log).
Proof.
  intros Hb Hh Hv Hl Hall.
  rewrite (chash_insert_run false t cs log v l Hb Hh Hv Hl).
  apply lookup_loop_none in Hall. rewrite Hall. reflexivity.
Qed.

(** C2: on a one-bucket table with an empty chain, inserting the value 1
    while the chain append fails returns 0, the success code, not -1; the
    table, its size included, is unchanged. *)
Theorem C2_insert_returns_0_on_failed_append :
  chash_insert false 1 (mkState (fresh 1 addr_hash addr_match NULL) [])
  = Ret (0, mkState (fresh 1 addr_hash addr_match NULL) []).
Proof. reflexivity. Qed.

(** With the slot itself null, the null test of chash_insert is not reached:
    the chash_lookup that precedes it has already read the head of the
    list. *)
Example insert_on_null_slot :
  chash_insert true 1
    (mkState (mkCHash 0 1 addr_hash addr_match NULL (Some [None])) [])
  = Fault NullDeref.
Proof. reflexivity. Qed.

(** ** Lookup *)

Lemma chash_lookup_null_never_0 s r s' :
  chash_lookup NULL s = Ret (r, s') -> fst r = 1.
Proof.
  unfold chash_lookup. run_monad. cbn [Z.eqb NULL negb].
  destruct (index _ _) as [slot|]; [|discriminate].
  destruct (deref _) as [l|]; [|discriminate].
  destruct (list_data _ _) as [x|]; [|discriminate].
  intros [= <- _]. reflexivity.
Qed.

(** C3: lookup in arbitrary mode on a table whose bucket 0 is empty reads
    the data of the null head node; it does not return 0.  With 4 in bucket
    0 the same call returns 1 and the head value 4. *)
Theorem C3_lookup_null_reads_null_head :
  chash_lookup NULL (mkState (demo [1; 5; 9]) []) = Fault NullDeref /\
  chash_lookup NULL
    (mkState (with_chain (demo [1; 5; 9]) (demo_chains [1; 5; 9]) 0
                (mkChain NULL [4]) 4) [])
  = Ret ((1, 4),
         mkState (with_chain (demo [1; 5; 9]) (demo_chains [1; 5; 9]) 0
                    (mkChain NULL [4]) 4) []).
Proof. split; reflexivity. Qed.

(** ** Remove *)

(** C7: on a table whose size is 0, remove returns -1 whatever [*data] is,
    and leaves the table, [*data] and the callback log as they were; the
    bucket array is not consulted, so this holds even for a table whose
    array is null. *)
Theorem C7_remove_rejects_empty_table (s : state) (data : ptr) :
  size (st_tbl s) = 0 -> chash_remove data s = Ret ((-1, data), s).
Proof. apply chash_remove_empty. Qed.

Lemma C7_witness :
  size (st_tbl (mkState demo0 [])) = 0 /\
  chash_remove 5 (mkState demo0 []) = Ret ((-1, 5), mkState demo0 []) /\
  chash_remove NULL (mkState (mkCHash 0 4 addr_hash addr_match NULL None) [])
  = Ret ((-1, NULL), mkState (mkCHash 0 4 addr_hash addr_match NULL None) []).
Proof.
  split; [reflexivity|]. split.
  - apply (C7_remove_rejects_empty_table (mkState demo0 []) 5). reflexivity.
  - apply (C7_remove_rejects_empty_table
             (mkState (mkCHash 0 4 addr_hash addr_match NULL None) []) NULL).
    reflexivity.
Defined.

(** ** The bucket index *)

(** C10: with 0 < buckets <= INT_MAX the index computed for any value is the
    hash, converted to unsigned int, modulo the bucket count, and lies in
    [0, buckets) whatever the sign of the hash. *)
Theorem C10_bucket_index_in_range (t : CHash) (v : ptr) :
  0 < buckets t <= INT_MAX ->
  exists b,
    bucket_of t v = Ret b /\
    b = (hash t v mod UINT_MODULUS) mod buckets t /\
    0 <= b < buckets t.
Proof.
  intros H. exists (bidx t v).
  destruct (bucket_of_bidx t v H) as [E Hr].
  split; [exact E|]. split; [reflexivity | exact Hr].
Qed.

Lemma C10_witness :
  0 < buckets demo0 <= INT_MAX /\
  exists b,
    bucket_of demo0 (-3) = Ret b /\
    b = (hash demo0 (-3) mod UINT_MODULUS) mod buckets demo0 /\
    0 <= b < buckets demo0.
Proof.
  split; [vm_compute; split; [reflexivity | discriminate]|].
  apply (C10_bucket_index_in_range demo0 (-3)).
  vm_compute. split; [reflexivity | discriminate].
Defined.

Example bucket_of_negative_hash :
  hash demo0 (-3) = -3 /\ bucket_of demo0 (-3) = Ret 1.
Proof. split; reflexivity. Qed.

(** ** Targeted and arbitrary removal *)

Lemma wf_pred_size t : wf t -> size t <> 0 -> to_uint (size t - 1) = size t - 1.
Proof.
  intros Hw Hs. apply to_uint_small. pose proof (wf_size t Hw). lia.
Qed.

Lemma demo_wf l : (length l < 1000)%nat -> wf (demo l).
Proof.
  intros Hl. constructor.
  - cbn [size demo]. unfold UINT_MODULUS. lia.
  - cbn [buckets demo]. unfold INT_MAX. lia.
  - exists (demo_chains l). split; reflexivity.
Qed.

(** C8: on a complete table with size > 0 and a non-null [v], remove looks
    at the chain of bucket hash(v) mod buckets only.  If that chain is
    [pre ++ s :: post] with [s] the first element matched by [v], the call
    returns 0 with [s] in [*data], the chain becomes [pre ++ post], size
    drops by one and no callback (in particular not destroy) is invoked.
    If nothing in the chain matches, it returns -1 and changes nothing. *)
Theorem C8_targeted_remove (t : CHash) (log : list event) (v : ptr) :
  wf t -> size t <> 0 -> v <> NULL ->
  exists cs l,
    holds t cs /\
    0 <= bidx t v < buckets t /\
    cs !! Z.to_nat (bidx t v) = Some l /\
    (forall pre s post,
       l_elems l = pre ++ s :: post ->
       Forall (fun x => match_ t v x = 0) pre -> match_ t v s <> 0 ->
       chash_remove v (mkState t log)
       = Ret ((0, s),
              mkState (with_chain t cs (Z.to_nat (bidx t v))
                         (mkChain (l_destroy l) (pre ++ post)) (size t - 1))
                log)) /\
    (Forall (fun x => match_ t v x = 0) (l_elems l) ->
     chash_remove v (mkState t log) = Ret ((-1, v), mkState t log)).
Proof.
  intros Hw Hs Hv. destruct (wf_holds t Hw) as [cs Hh].
  pose proof (wf_buckets t Hw) as Hb.
  destruct (bucket_of_bidx t v Hb) as [_ Hr].
  destruct (holds_lookup t cs (bidx t v) Hh Hr) as [l Hl].
  exists cs, l.
  split; [exact Hh|]. split; [exact Hr|]. split; [exact Hl|]. split.
  - intros pre s post El Hpre Hm.
    rewrite <- (wf_pred_size t Hw Hs).
    apply chash_remove_found; assumption.
  - intros Hall. apply (chash_remove_missing t cs log v l); assumption.
Qed.

Lemma C8_witness :
  wf (demo [1; 5; 9]) /\ size (demo [1; 5; 9]) <> 0 /\ 5 <> NULL /\
  exists cs l,
    holds (demo [1; 5; 9]) cs /\
    0 <= bidx (demo [1; 5; 9]) 5 < buckets (demo [1; 5; 9]) /\
    cs !! Z.to_nat (bidx (demo [1; 5; 9]) 5) = Some l /\
    (forall pre s post,
       l_elems l = pre ++ s :: post ->
       Forall (fun x => match_ (demo [1; 5; 9]) 5 x = 0) pre ->
       match_ (demo [1; 5; 9]) 5 s <> 0 ->
       chash_remove 5 (mkState (demo [1; 5; 9]) [])
       = Ret ((0, s),
              mkState (with_chain (demo [1; 5; 9]) cs
                         (Z.to_nat (bidx (demo [1; 5; 9]) 5))
                         (mkChain (l_destroy l) (pre ++ post))
                         (size (demo [1; 5; 9]) - 1))
                [])) /\
    (Forall (fun x => match_ (demo [1; 5; 9]) 5 x = 0) (l_elems l) ->
     chash_remove 5 (mkState (demo [1; 5; 9]) [])
     = Ret ((-1, 5), mkState (demo [1; 5; 9]) [])).
Proof.
  split; [apply demo_wf; cbn; lia|].
  split; [discriminate|]. split; [discriminate|].
  apply (C8_targeted_remove (demo [1; 5; 9]) [] 5);
    [apply demo_wf; cbn; lia | discriminate | discriminate].
Defined.

Example remove_middle_of_chain :
  chash_remove 5 (mkState (demo [1; 5; 9]) [])
  = Ret ((0, 5), mkState (demo [1; 9]) []).
Proof. reflexivity. Qed.

(** C9: on a complete table with size > 0 whose size is the number of
    stored values, remove in arbitrary mode stops at the first bucket [j]
    whose chain is not empty, with [j] below the bucket count; it removes
    the head [x] of that chain, returns 0 with [x] in [*data], and size
    drops by one. *)
Theorem C9_arbitrary_remove (t : CHash) (log : list event) :
  wf t -> 0 < size t -> size t = chain_total t ->
  exists cs j l x rest,
    holds t cs /\
    0 <= Z.of_nat j < buckets t /\
    cs !! j = Some l /\ l_elems l = x :: rest /\
    (forall j' l', (j' < j)%nat -> cs !! j' = Some l' -> l_elems l' = []) /\
    chash_remove NULL (mkState t log)
    = Ret ((0, x),
           mkState (with_chain t cs j (mkChain (l_destroy l) rest)
                      (size t - 1)) log).
Proof.
  intros Hw Hs Hinv. destruct (wf_holds t Hw) as [cs Hh].
  assert (exists j l, cs !! j = Some l /\ l_elems l <> []) as Hne.
  { apply values_nonempty. intros E.
    unfold chain_total in Hinv. rewrite (stored_holds t cs (proj1 Hh)), E in Hinv.
    cbn in Hinv. lia. }
  destruct (chash_remove_null_run t cs log) as (j & l & x & rest & Hl & El & Hmin & Hr);
    [lia | exact Hh | exact Hne |].
  exists cs, j, l, x, rest. rewrite <- (wf_pred_size t Hw) by lia.
  split; [exact Hh|]. split.
  { apply lookup_lt_Some in Hl. destruct Hh as [_ Hlen]. lia. }
  split; [exact Hl|]. split; [exact El|]. split; [exact Hmin | exact Hr].
Qed.

Lemma C9_witness :
  wf (demo [1; 5; 9]) /\ 0 < size (demo [1; 5; 9]) /\
  size (demo [1; 5; 9]) = chain_total (demo [1; 5; 9]) /\
  exists cs j l x rest,
    holds (demo [1; 5; 9]) cs /\
    0 <= Z.of_nat j < buckets (demo [1; 5; 9]) /\
    cs !! j = Some l /\ l_elems l = x :: rest /\
    (forall j' l', (j' < j)%nat -> cs !! j' = Some l' -> l_elems l' = []) /\
    chash_remove NULL (mkState (demo [1; 5; 9]) [])
    = Ret ((0, x),
           mkState (with_chain (demo [1; 5; 9]) cs j
                      (mkChain (l_destroy l) rest)
                      (size (demo [1; 5; 9]) - 1)) []).
Proof.
  split; [apply demo_wf; cbn; lia|].
  split; [reflexivity|]. split; [reflexivity|].
  apply (C9_arbitrary_remove (demo [1; 5; 9]) []);
    [apply demo_wf; cbn; lia | reflexivity | reflexivity].
Defined.

Example remove_arbitrary_skips_empty_bucket :
  chash_remove NULL (mkState (demo [1; 5; 9]) [])
  = Ret ((0, 1), mkState (demo [5; 9]) []).
Proof. reflexivity. Qed.

(** ** Traversal and the element count *)

Lemma each_bucket_run f (cs : list chain) : forall n k,
  (k + n = length cs)%nat ->
  each_bucket f (Some (Some <$> cs)) n (Z.of_nat k)
  = Ret (concat (f <$> drop k cs)).
Proof.
  induction n as [|n IH]; intros k Hk.
  - rewrite drop_ge by lia. reflexivity.
  - destruct (lookup_lt_is_Some_2 cs k) as [c Hc]; [lia|].
    cbn [each_bucket].
    rewrite (index_some cs (Z.of_nat k) c)
      by (rewrite ?Nat2Z.id; first [lia | exact Hc]).
    cbn [obind deref].
    replace (Z.of_nat k + 1) with (Z.of_nat (S k)) by lia.
    rewrite IH by lia. cbn [obind].
    rewrite (drop_S cs c k Hc). reflexivity.
Qed.

Lemma concat_visited cb (cs : list chain) :
  concat ((fun l => list_traverse l cb) <$> cs) = Visited cb <$> values cs.
Proof.
  induction cs as [|c cs IH]; [reflexivity|].
  rewrite values_cons, fmap_app. cbn [fmap list_fmap concat].
  f_equal. exact IH.
Qed.

Lemma chash_traverse_run t cs log cb :
  holds t cs ->
  chash_traverse cb (mkState t log)
  = Ret (tt, mkState t (log ++ (Visited cb <$> stored t))).
Proof.
  intros [Ht Hlen]. unfold chash_traverse, emit. run_monad.
  rewrite (stored_holds t cs Ht), Ht, <- Hlen, Nat2Z.id.
  change 0 with (Z.of_nat 0).
  rewrite (each_bucket_run _ cs (length cs) 0%nat eq_refl).
  rewrite drop_0, concat_visited. reflexivity.
Qed.


(** ** A table with 2^32 values *)







(** ** The size invariant *)




Example traverse_visits_in_chain_order :
  chash_traverse 77 (mkState (demo [1; 5; 9]) [])
  = Ret (tt, mkState (demo [1; 5; 9]) [Visited 77 1; Visited 77 5; Visited 77 9]).
Proof. reflexivity. Qed.

(** ** Uniqueness *)








Example insert_duplicate :
  chash_insert true 5 (mkState (demo [1; 5; 9]) [])
  = Ret (1, mkState (demo [1; 5; 9]) []).
Proof. reflexivity. Qed.

(** ** Round trip *)









Example round_trip_on_demo :
  chash_insert true 13 (mkState (demo [1; 5; 9]) [])
  = Ret (0, mkState (demo [1; 5; 9; 13]) []) /\
  chash_lookup 13 (mkState (demo [1; 5; 9; 13]) [])
  = Ret ((1, 13), mkState (demo [1; 5; 9; 13]) []) /\
  chash_remove 13 (mkState (demo [1; 5; 9; 13]) [])
  = Ret ((0, 13), mkState (demo [1; 5; 9]) []) /\
  chash_lookup 13 (mkState (demo [1; 5; 9]) [])
  = Ret ((0, 13), mkState (demo [1; 5; 9]) []).
Proof. repeat split. Qed.

(** C6: on the four-bucket table holding 1, 5 and 9, an insert of 13 whose
    chain append fails returns 0, the success code, and the lookup of 13
    that follows returns 0: the round trip of an insert that reported
    success does not give the value back. *)
Theorem C6_failed_append_breaks_round_trip :
  chash_insert false 13 (mkState (demo [1; 5; 9]) [])
  = Ret (0, mkState (demo [1; 5; 9]) []) /\
  chash_lookup 13 (mkState (demo [1; 5; 9]) [])
  = Ret ((0, 13), mkState (demo [1; 5; 9]) []).
Proof. split; reflexivity. Qed.

(** * Further properties of the API *)

(** ** What the operations leave alone *)

Lemma chash_lookup_same_state v s r s' :
  chash_lookup v s = Ret (r, s') -> s' = s.
Proof.
  unfold chash_lookup. run_monad.
  destruct (negb (v =? NULL)).
  - destruct (bucket_of _ _); [|discriminate].
    destruct (index _ _); [|discriminate].
    destruct (deref _); [|discriminate].
    destruct (lookup_loop _ _ _); intros [= _ <-]; reflexivity.
  - destruct (index _ _); [|discriminate].
    destruct (deref _); [|discriminate].
    destruct (list_data _ _); [|discriminate].
    intros [= _ <-]. reflexivity.
Qed.

Lemma same_fns_refl t : same_fns t t.
Proof. repeat split. Qed.


Lemma chash_insert_frame ok v s r s' :
  chash_insert ok v s = Ret (r, s') ->
  st_log s' = st_log s /\ same_fns (st_tbl s) (st_tbl s').
Proof.
  unfold chash_insert. destruct (v =? NULL).
  { intros [= _ <-]. split; [reflexivity | apply same_fns_refl]. }
  unfold bind at 1. destruct (chash_lookup v s) as [[found s0]|] eqn:El;
    [|discriminate].
  apply chash_lookup_same_state in El. subst s0.
  destruct (negb (fst found =? 0)).
  { intros [= _ <-]. split; [reflexivity | apply same_fns_refl]. }
  run_monad.
  destruct (bucket_of _ _); [|discriminate].
  destruct (index _ _) as [[tmplist|]|]; [| |discriminate].
  - destruct (store _ _ _); [|discriminate].
    destruct (fst _ =? 0); intros [= _ <-];
      (split; [reflexivity | repeat split]).
  - intros [= _ <-]. split; [reflexivity | apply same_fns_refl].
Qed.

Lemma remove_after_frame b prev data s r s' :
  remove_after b prev data s = Ret (r, s') ->
  st_log s' = st_log s /\ same_fns (st_tbl s) (st_tbl s').
Proof.
  unfold remove_after. run_monad.
  destruct (index _ _); [|discriminate].
  destruct (deref _); [|discriminate].
  destruct (store _ _ _); [|discriminate].
  intros [= _ <-]. split; [reflexivity | repeat split].
Qed.

Lemma chash_remove_frame v s r s' :
  chash_remove v s = Ret (r, s') ->
  st_log s' = st_log s /\ same_fns (st_tbl s) (st_tbl s').
Proof.
  unfold chash_remove. unfold bind at 1, get_tbl.
  destruct (size (st_tbl s) =? 0).
  { intros [= _ <-]. split; [reflexivity | apply same_fns_refl]. }
  destruct (negb (v =? NULL)).
  - unfold bind at 1, lift at 1.
    destruct (bucket_of _ _); [|discriminate].
    unfold bind at 1, lift at 1.
    destruct (index _ _); [|discriminate].
    unfold bind at 1, lift at 1.
    destruct (deref _); [|discriminate].
    destruct (remove_loop _ _ _ _ _).
    + apply remove_after_frame.
    + intros [= _ <-]. split; [reflexivity | apply same_fns_refl].
  - unfold bind at 1, lift at 1.
    destruct (first_nonempty _ _ _); [|discriminate].
    apply remove_after_frame.
Qed.

(** X2: whenever chash_lookup returns, in either mode and on any table, the
    table and the callback log are exactly as before the call. *)
Theorem X2_lookup_leaves_state (v : ptr) (s : state) (r : Z * ptr) (s' : state) :
  chash_lookup v s = Ret (r, s') -> s' = s.
Proof. apply chash_lookup_same_state. Qed.

Lemma X2_witness :
  chash_lookup 5 (mkState (demo [1; 5; 9]) [])
  = Ret ((1, 5), mkState (demo [1; 5; 9]) []) /\
  mkState (demo [1; 5; 9]) [] = mkState (demo [1; 5; 9]) [].
Proof.
  split; [reflexivity|].
  apply (X2_lookup_leaves_state 5 (mkState (demo [1; 5; 9]) []) (1, 5)).
  reflexivity.
Defined.

(** X3: whenever chash_insert or chash_remove returns, on any table and for
    any argument, neither the destructor nor a traversal callback has been
    applied to a value (the log is as it was), and the hash, match, destroy
    and bucket-count fields of the table are unchanged. *)
Theorem X3_insert_remove_keep_functions (s : state) :
  (forall ok v r s',
     chash_insert ok v s = Ret (r, s') ->
     st_log s' = st_log s /\ same_fns (st_tbl s) (st_tbl s')) /\
  (forall v r s',
     chash_remove v s = Ret (r, s') ->
     st_log s' = st_log s /\ same_fns (st_tbl s) (st_tbl s')).
Proof.
  split.
  - intros ok v r s'. apply chash_insert_frame.
  - intros v r s'. apply chash_remove_frame.
Qed.

(** ** Bucket stability *)

Lemma step_same_fns t t' : step t t' -> same_fns t t'.
Proof.
  intros [ok v log r log' H | v log r log' H].
  - apply chash_insert_frame in H as [_ H]. exact H.
  - apply chash_remove_frame in H as [_ H]. exact H.
Qed.

Lemma same_fns_bucket_of t t' w : same_fns t t' -> bucket_of t' w = bucket_of t w.
Proof.
  intros (_ & Hh & Hb & _). unfold bucket_of. rewrite Hh, Hb. reflexivity.
Qed.

(** X9: along any sequence of inserts and removes, starting from any table,
    the bucket index computed for a value stays the same: no operation
    changes the hash function or the bucket count. *)
Theorem X9_bucket_index_stable (t t' : CHash) (w : ptr) :
  rtc step t t' -> bucket_of t' w = bucket_of t w.
Proof.
  induction 1 as [t | t t1 t2 Hs _ IH]; [reflexivity|].
  rewrite IH. apply same_fns_bucket_of, step_same_fns. exact Hs.
Qed.

Lemma demo_steps : rtc step (demo []) (demo [1; 9]).
Proof.
  apply (rtc_l _ _ (demo [1])).
  { apply (step_insert _ _ true 1 [] 0 []). reflexivity. }
  apply (rtc_l _ _ (demo [1; 5])).
  { apply (step_insert _ _ true 5 [] 0 []). reflexivity. }
  apply (rtc_l _ _ (demo [1; 5; 9])).
  { apply (step_insert _ _ true 9 [] 0 []). reflexivity. }
  apply (rtc_l _ _ (demo [1; 9])).
  { apply (step_remove _ _ 5 [] (0, 5) []). reflexivity. }
  apply rtc_refl.
Qed.

Lemma X9_witness :
  rtc step (demo []) (demo [1; 9]) /\
  bucket_of (demo [1; 9]) (-3) = bucket_of (demo []) (-3).
Proof.
  split; [exact demo_steps|].
  apply (X9_bucket_index_stable (demo []) (demo [1; 9]) (-3)).
  exact demo_steps.
Defined.

(** ** Targeted lookup *)

(** X1: on a complete table, chash_lookup of a non-null [v] scans only the
    chain of bucket hash(v) mod buckets.  It returns 1 and puts in [*data]
    the first stored element matched by [v] (the stored pointer, not the
    queried one); if no element of that chain matches it returns 0 and
    leaves [*data] alone. *)
Theorem X1_lookup_finds_first_match (t : CHash) (log : list event) (v : ptr) :
  wf t -> v <> NULL ->
  exists cs l,
    holds t cs /\ cs !! Z.to_nat (bidx t v) = Some l /\
    (forall pre s post,
       l_elems l = pre ++ s :: post ->
       Forall (fun x => match_ t v x = 0) pre -> match_ t v s <> 0 ->
       chash_lookup v (mkState t log) = Ret ((1, s), mkState t log)) /\
    (Forall (fun x => match_ t v x = 0) (l_elems l) ->
     chash_lookup v (mkState t log) = Ret ((0, v), mkState t log)).
Proof.
  intros Hw Hv. destruct (wf_holds t Hw) as [cs Hh].
  pose proof (wf_buckets t Hw) as Hb.
  destruct (bucket_of_bidx t v Hb) as [_ Hr].
  destruct (holds_lookup t cs (bidx t v) Hh Hr) as [l Hl].
  exists cs, l. split; [exact Hh|]. split; [exact Hl|].
  rewrite (chash_lookup_run t cs log v l Hb Hh Hv Hl). split.
  - intros pre s post El Hpre Hm.
    rewrite El, (lookup_loop_found _ _ pre s post Hpre Hm). reflexivity.
  - intros Hall. apply lookup_loop_none in Hall. rewrite Hall. reflexivity.
Qed.

(** A table whose match function ignores pointer identity: two distinct
    pointers, 5 and 21, both congruent to 5 modulo 16. *)
Example lookup_returns_stored_pointer :
  chash_lookup 21
    (mkState (mkCHash 1 4 (fun p => p mod 16)
                (fun a b => if a mod 16 =? b mod 16 then 1 else 0) NULL
                (Some (Some <$> demo_chains [5]))) [])
  = Ret ((1, 5),
         mkState (mkCHash 1 4 (fun p => p mod 16)
                    (fun a b => if a mod 16 =? b mod 16 then 1 else 0) NULL
                    (Some (Some <$> demo_chains [5]))) []).
Proof. reflexivity. Qed.

Lemma X1_witness :
  wf (demo [1; 5; 9]) /\ 9 <> NULL /\
  exists cs l,
    holds (demo [1; 5; 9]) cs /\
    cs !! Z.to_nat (bidx (demo [1; 5; 9]) 9) = Some l /\
    (forall pre s post,
       l_elems l = pre ++ s :: post ->
       Forall (fun x => match_ (demo [1; 5; 9]) 9 x = 0) pre ->
       match_ (demo [1; 5; 9]) 9 s <> 0 ->
       chash_lookup 9 (mkState (demo [1; 5; 9]) [])
       = Ret ((1, s), mkState (demo [1; 5; 9]) [])) /\
    (Forall (fun x => match_ (demo [1; 5; 9]) 9 x = 0) (l_elems l) ->
     chash_lookup 9 (mkState (demo [1; 5; 9]) [])
     = Ret ((0, 9), mkState (demo [1; 5; 9]) [])).
Proof.
  split; [apply demo_wf; cbn; lia|]. split; [discriminate|].
  apply (X1_lookup_finds_first_match (demo [1; 5; 9]) [] 9);
    [apply demo_wf; cbn; lia | discriminate].
Defined.

(** ** Insert *)

Lemma stored_at_holds t cs b i x :
  table t = Some (Some <$> cs) ->
  stored_at t b i x <-> exists l, cs !! b = Some l /\ l_elems l !! i = Some x.
Proof.
  intros Ht. split.
  - intros (slots & l & Hs & Hb & Hi). rewrite Ht in Hs.
    injection Hs as <-. rewrite list_lookup_fmap in Hb.
    destruct (cs !! b) as [l0|]; [|discriminate]. injection Hb as ->.
    exists l. split; [reflexivity | exact Hi].
  - intros (l & Hl & Hi). exists (Some <$> cs), l.
    split; [exact Ht|]. split; [|exact Hi].
    rewrite list_lookup_fmap, Hl. reflexivity.
Qed.

(** X4: on a complete table, inserting a non-null [v] that matches nothing
    in the chain of its bucket, with the node allocation succeeding,
    returns 0 and puts [v] at the tail of that chain; every value already
    stored keeps its bucket and position, and size becomes size + 1
    modulo 2^32. *)
Theorem X4_insert_appends_at_tail (t : CHash) (log : list event) (v : ptr) :
  wf t -> v <> NULL ->
  exists cs l t',
    holds t cs /\ cs !! Z.to_nat (bidx t v) = Some l /\
    (Forall (fun x => match_ t v x = 0) (l_elems l) ->
     chash_insert true v (mkState t log) = Ret (0, mkState t' log) /\
     size t' = (size t + 1) mod 4294967296 /\
     stored_at t' (Z.to_nat (bidx t v)) (length (l_elems l)) v /\
     (forall b i x, stored_at t b i x -> stored_at t' b i x)).
Proof.
  intros Hw Hv. destruct (wf_holds t Hw) as [cs Hh].
  pose proof (wf_buckets t Hw) as Hb.
  destruct (bucket_of_bidx t v Hb) as [_ Hr].
  destruct (holds_lookup t cs (bidx t v) Hh Hr) as [l Hl].
  set (n := Z.to_nat (bidx t v)) in *.
  set (l' := mkChain (l_destroy l) (l_elems l ++ [v])).
  exists cs, l, (with_chain t cs n l' (to_uint (size t + 1))).
  split; [exact Hh|]. split; [exact Hl|]. intros Hall.
  assert (<[n := l']> cs !! n = Some l') as Hl'
    by (apply list_lookup_insert_eq; eapply lookup_lt_Some; exact Hl).
  split; [|split; [reflexivity|split]].
  - rewrite (chash_insert_run true t cs log v l Hb Hh Hv Hl).
    apply lookup_loop_none in Hall. rewrite Hall. reflexivity.
  - apply (stored_at_holds _ (<[n := l']> cs)); [reflexivity|].
    exists l'. split; [exact Hl'|]. cbn [l' l_elems].
    apply list_lookup_middle. reflexivity.
  - intros b i x Hx.
    apply (stored_at_holds t cs b i x (proj1 Hh)) in Hx as (l0 & Hl0 & Hi).
    apply (stored_at_holds _ (<[n := l']> cs)); [reflexivity|].
    destruct (decide (b = n)) as [->|Hne].
    + rewrite Hl in Hl0. injection Hl0 as <-. exists l'.
      split; [exact Hl'|]. cbn [l' l_elems].
      apply lookup_app_l_Some. exact Hi.
    + exists l0. split; [|exact Hi].
      rewrite list_lookup_insert_ne by congruence. exact Hl0.
Qed.

Lemma X4_witness :
  wf (demo [1; 5; 9]) /\ 13 <> NULL /\
  exists cs l t',
    holds (demo [1; 5; 9]) cs /\
    cs !! Z.to_nat (bidx (demo [1; 5; 9]) 13) = Some l /\
    (Forall (fun x => match_ (demo [1; 5; 9]) 13 x = 0) (l_elems l) ->
     chash_insert true 13 (mkState (demo [1; 5; 9]) [])
     = Ret (0, mkState t' []) /\
     size t' = (size (demo [1; 5; 9]) + 1) mod 4294967296 /\
     stored_at t' (Z.to_nat (bidx (demo [1; 5; 9]) 13)) (length (l_elems l)) 13 /\
     (forall b i x, stored_at (demo [1; 5; 9]) b i x -> stored_at t' b i x)).
Proof.
  split; [apply demo_wf; cbn; lia|]. split; [discriminate|].
  apply (X4_insert_appends_at_tail (demo [1; 5; 9]) [] 13);
    [apply demo_wf; cbn; lia | discriminate].
Defined.

(** X5: on a complete table chash_insert always returns, and its result is
    -1 exactly for a null value, 1 exactly when chash_lookup finds a match
    (the state is then untouched), and 0 in every other case, whether or
    not the node allocation succeeds. *)
Theorem X5_insert_return_code (t : CHash) (log : list event) (ok : bool)
    (v : ptr) :
  wf t ->
  (v = NULL /\
   chash_insert ok v (mkState t log) = Ret (-1, mkState t log)) \/
  (v <> NULL /\
   exists x,
     chash_lookup v (mkState t log) = Ret ((1, x), mkState t log) /\
     chash_insert ok v (mkState t log) = Ret (1, mkState t log)) \/
  (v <> NULL /\
   chash_lookup v (mkState t log) = Ret ((0, v), mkState t log) /\
   exists s', chash_insert ok v (mkState t log) = Ret (0, s')).
Proof.
  intros Hw. destruct (decide (v = NULL)) as [->|Hv].
  { left. split; reflexivity. }
  right. destruct (wf_holds t Hw) as [cs Hh].
  pose proof (wf_buckets t Hw) as Hb.
  destruct (bucket_of_bidx t v Hb) as [_ Hr].
  destruct (holds_lookup t cs (bidx t v) Hh Hr) as [l Hl].
  rewrite (chash_insert_run ok t cs log v l Hb Hh Hv Hl).
  rewrite (chash_lookup_run t cs log v l Hb Hh Hv Hl).
  destruct (lookup_loop (match_ t) v (l_elems l)) as [x|].
  - left. split; [exact Hv|]. exists x. split; reflexivity.
  - right. split; [exact Hv|]. split; [reflexivity|].
    destruct ok; eexists; reflexivity.
Qed.

Lemma X5_witness :
  wf (demo [1; 5; 9]) /\
  ((13 = NULL /\
    chash_insert false 13 (mkState (demo [1; 5; 9]) [])
    = Ret (-1, mkState (demo [1; 5; 9]) [])) \/
   (13 <> NULL /\
    exists x,
      chash_lookup 13 (mkState (demo [1; 5; 9]) [])
      = Ret ((1, x), mkState (demo [1; 5; 9]) []) /\
      chash_insert false 13 (mkState (demo [1; 5; 9]) [])
      = Ret (1, mkState (demo [1; 5; 9]) [])) \/
   (13 <> NULL /\
    chash_lookup 13 (mkState (demo [1; 5; 9]) [])
    = Ret ((0, 13), mkState (demo [1; 5; 9]) []) /\
    exists s',
      chash_insert false 13 (mkState (demo [1; 5; 9]) []) = Ret (0, s'))).
Proof.
  split; [apply demo_wf; cbn; lia|].
  apply (X5_insert_return_code (demo [1; 5; 9]) [] false 13).
  apply demo_wf; cbn; lia.
Defined.

Lemma lookup_loop_app m v (l r : list ptr) x :
  lookup_loop m v l = Some x -> lookup_loop m v (l ++ r) = Some x.
Proof.
  induction l as [|y l IH]; simpl; [discriminate|].
  destruct (m v y =? 0); [exact IH | trivial].
Qed.

(** X8: on a complete table, a lookup that succeeded keeps its answer
    across any chash_insert that returns: the same call afterwards returns
    1 with the same stored value, in targeted and in arbitrary mode. *)
Theorem X8_insert_keeps_lookups (t : CHash) (log : list event) (ok : bool)
    (v w x : ptr) (r : Z) (s1 : state) :
  wf t ->
  chash_lookup w (mkState t log) = Ret ((1, x), mkState t log) ->
  chash_insert ok v (mkState t log) = Ret (r, s1) ->
  chash_lookup w s1 = Ret ((1, x), s1).
Proof.
  intros Hw Hlook Hins.
  destruct (decide (v = NULL)) as [->|Hv].
  { injection Hins as _ <-. exact Hlook. }
  destruct (wf_holds t Hw) as [cs Hh].
  pose proof (wf_buckets t Hw) as Hb.
  destruct (bucket_of_bidx t v Hb) as [_ Hr].
  destruct (holds_lookup t cs (bidx t v) Hh Hr) as [l Hl].
  rewrite (chash_insert_run ok t cs log v l Hb Hh Hv Hl) in Hins.
  destruct (lookup_loop (match_ t) v (l_elems l)) as [y|].
  { injection Hins as _ <-. exact Hlook. }
  destruct ok; injection Hins as _ <-; [|exact Hlook].
  set (n := Z.to_nat (bidx t v)) in *.
  set (l' := mkChain (l_destroy l) (l_elems l ++ [v])).
  set (t' := with_chain t cs n l' (to_uint (size t + 1))).
  assert (holds t' (<[n := l']> cs)) as Hh'.
  { split; [reflexivity|]. rewrite length_insert. apply Hh. }
  assert (<[n := l']> cs !! n = Some l') as Hl'
    by (apply list_lookup_insert_eq; eapply lookup_lt_Some; exact Hl).
  destruct (decide (w = NULL)) as [->|Hwn].
  - destruct (holds_lookup t cs 0 Hh) as [l0 Hl0]; [lia|].
    change (Z.to_nat 0) with 0%nat in Hl0.
    rewrite (chash_lookup_null_run t cs log l0 Hh Hl0) in Hlook.
    destruct (l_elems l0) as [|x0 r0] eqn:E0; [discriminate|].
    injection Hlook as ->.
    destruct (decide (n = 0%nat)) as [En|Hne].
    + assert (<[n := l']> cs !! 0%nat = Some l') as Hl0'
        by (rewrite <- En; exact Hl').
      rewrite En in Hl. rewrite Hl in Hl0. injection Hl0 as <-.
      rewrite (chash_lookup_null_run t' _ log l' Hh' Hl0').
      cbn [l' l_elems]. rewrite E0. reflexivity.
    + rewrite (chash_lookup_null_run t' _ log l0 Hh').
      * rewrite E0. reflexivity.
      * rewrite list_lookup_insert_ne by exact Hne. exact Hl0.
  - destruct (bucket_of_bidx t w Hb) as [_ Hrw].
    destruct (holds_lookup t cs (bidx t w) Hh Hrw) as [lw Hlw].
    rewrite (chash_lookup_run t cs log w lw Hb Hh Hwn Hlw) in Hlook.
    destruct (lookup_loop (match_ t) w (l_elems lw)) as [x0|] eqn:Ew;
      [|discriminate].
    injection Hlook as ->.
    destruct (decide (Z.to_nat (bidx t w) = n)) as [En|Hne].
    + rewrite En, Hl in Hlw. injection Hlw as <-.
      rewrite (chash_lookup_run t' _ log w l' Hb Hh' Hwn).
      * cbn [t' match_ with_chain l' l_elems].
        rewrite (lookup_loop_app _ _ _ [v] _ Ew). reflexivity.
      * change (bidx t' w) with (bidx t w). rewrite En. exact Hl'.
    + rewrite (chash_lookup_run t' _ log w lw Hb Hh' Hwn).
      * cbn [t' match_ with_chain]. rewrite Ew. reflexivity.
      * change (bidx t' w) with (bidx t w).
        rewrite list_lookup_insert_ne by congruence. exact Hlw.
Qed.

Lemma X8_witness :
  wf (demo [1; 5; 9]) /\
  chash_lookup 5 (mkState (demo [1; 5; 9]) [])
  = Ret ((1, 5), mkState (demo [1; 5; 9]) []) /\
  chash_insert true 13 (mkState (demo [1; 5; 9]) [])
  = Ret (0, mkState (demo [1; 5; 9; 13]) []) /\
  chash_lookup 5 (mkState (demo [1; 5; 9; 13]) [])
  = Ret ((1, 5), mkState (demo [1; 5; 9; 13]) []).
Proof.
  split; [apply demo_wf; cbn; lia|]. split; [reflexivity|].
  split; [reflexivity|].
  apply (X8_insert_keeps_lookups (demo [1; 5; 9]) [] true 13 5 5 0);
    [apply demo_wf; cbn; lia | reflexivity | reflexivity].
Defined.

(** ** Remove and lookup *)

(** X7: on a complete, non-empty table and for a non-null [v], targeted
    chash_remove succeeds exactly when chash_lookup finds a match, and it
    hands back the very value lookup would report; it returns -1 with the
    state untouched exactly when lookup returns 0. *)
Theorem X7_remove_agrees_with_lookup (t : CHash) (log : list event) (v : ptr) :
  wf t -> size t <> 0 -> v <> NULL ->
  (forall x,
     chash_lookup v (mkState t log) = Ret ((1, x), mkState t log) <->
     exists s', chash_remove v (mkState t log) = Ret ((0, x), s')) /\
  (chash_lookup v (mkState t log) = Ret ((0, v), mkState t log) <->
   chash_remove v (mkState t log) = Ret ((-1, v), mkState t log)).
Proof.
  intros Hw Hs Hv. destruct (wf_holds t Hw) as [cs Hh].
  pose proof (wf_buckets t Hw) as Hb.
  destruct (bucket_of_bidx t v Hb) as [_ Hr].
  destruct (holds_lookup t cs (bidx t v) Hh Hr) as [l Hl].
  rewrite (chash_lookup_run t cs log v l Hb Hh Hv Hl).
  destruct (scan_cases (match_ t) v (l_elems l))
    as [Hall | (pre & s & post & El & Hpre & Hm)].
  - rewrite (chash_remove_missing t cs log v l Hs Hb Hh Hv Hl Hall).
    apply lookup_loop_none in Hall. rewrite Hall. split.
    + intros x. split; [discriminate | intros [s' H]; discriminate].
    + split; reflexivity.
  - rewrite (chash_remove_found t cs log v l pre s post Hs Hb Hh Hv Hl El Hpre Hm).
    rewrite El, (lookup_loop_found _ _ pre s post Hpre Hm). split.
    + intros x. split.
      * intros [= <-]. eexists. reflexivity.
      * intros [s' [= <- _]]. reflexivity.
    + split; discriminate.
Qed.

Lemma X7_witness :
  wf (demo [1; 5; 9]) /\ size (demo [1; 5; 9]) <> 0 /\ 5 <> NULL /\
  (forall x,
     chash_lookup 5 (mkState (demo [1; 5; 9]) [])
     = Ret ((1, x), mkState (demo [1; 5; 9]) []) <->
     exists s', chash_remove 5 (mkState (demo [1; 5; 9]) []) = Ret ((0, x), s')) /\
  (chash_lookup 5 (mkState (demo [1; 5; 9]) [])
   = Ret ((0, 5), mkState (demo [1; 5; 9]) []) <->
   chash_remove 5 (mkState (demo [1; 5; 9]) [])
   = Ret ((-1, 5), mkState (demo [1; 5; 9]) [])).
Proof.
  split; [apply demo_wf; cbn; lia|].
  split; [discriminate|]. split; [discriminate|].
  apply (X7_remove_agrees_with_lookup (demo [1; 5; 9]) [] 5);
    [apply demo_wf; cbn; lia | discriminate | discriminate].
Defined.

(** ** Lookup is complete when hash and match agree *)



Example lookup_on_built_demo :
  chash_lookup 11 (mkState (built_demo [1; 6; 11]) [])
  = Ret ((1, 11), mkState (built_demo [1; 6; 11]) []) /\
  chash_lookup 2 (mkState (built_demo [1; 6; 11]) [])
  = Ret ((0, 2), mkState (built_demo [1; 6; 11]) []) /\
  chash_lookup 4 (mkState (built_demo [1; 6; 11]) []) = Fault OutOfBounds.
Proof. repeat split. Qed.

(** ** Where the operations fault on the table chash_init builds *)






Example last_bucket_on_built_demo :
  bidx (built_demo [1; 6; 11]) 9 = 4 /\
  chash_insert true 9 (mkState (built_demo [1; 6; 11]) []) = Fault OutOfBounds /\
  chash_remove 9 (mkState (built_demo [1; 6; 11]) []) = Fault OutOfBounds /\
  chash_insert true 2 (mkState (built_demo [1; 6; 11]) [])
  = Ret (0, mkState (with_chain (built_demo [1; 6; 11]) (demo_chains [1; 6; 11])
                       2 (mkChain NULL [2]) 4) []).
Proof. repeat split. Qed.

(** ** Traversal *)

(** X11: on a complete table chash_traverse invokes the callback once on
    every stored value, bucket by bucket in index order and along each
    chain from head to tail, invokes nothing else, and leaves the table as
    it was. *)
Theorem X11_traverse_visits_in_order (t : CHash) (log : list event) (cb : ptr) :
  wf t ->
  chash_traverse cb (mkState t log)
  = Ret (tt, mkState t (log ++ (Visited cb <$> stored t))).
Proof.
  intros Hw. destruct (wf_holds t Hw) as [cs Hh].
  apply (chash_traverse_run t cs log cb Hh).
Qed.

Lemma X11_witness :
  wf (with_chain (demo [1; 5; 9]) (demo_chains [1; 5; 9]) 0 (mkChain NULL [4; 8]) 5) /\
  chash_traverse 77
    (mkState (with_chain (demo [1; 5; 9]) (demo_chains [1; 5; 9]) 0
                (mkChain NULL [4; 8]) 5) [])
  = Ret (tt,
         mkState (with_chain (demo [1; 5; 9]) (demo_chains [1; 5; 9]) 0
                    (mkChain NULL [4; 8]) 5)
           ([] ++ (Visited 77 <$> [4; 8; 1; 5; 9]))).
Proof.
  assert (wf (with_chain (demo [1; 5; 9]) (demo_chains [1; 5; 9]) 0
                (mkChain NULL [4; 8]) 5)) as Hw.
  { constructor.
    - cbn. unfold UINT_MODULUS. lia.
    - cbn. unfold INT_MAX. lia.
    - eexists. split; reflexivity. }
  split; [exact Hw|].
  apply (X11_traverse_visits_in_order _ [] 77 Hw).
Defined.

(** ** Chains carry the table's destructor and never hold null *)





(** ** Destruction *)

Lemma concat_destroyed t (cs : list chain) :
  (forall b l, cs !! b = Some l -> l_destroy l = destroy t) ->
  concat (list_destroy <$> cs)
  = if destroy t =? NULL then [] else Destroyed (destroy t) <$> values cs.
Proof.
  induction cs as [|c cs IH]; intros Hd.
  - destruct (destroy t =? NULL); reflexivity.
  - cbn [fmap list_fmap concat]. rewrite values_cons.
    change (list_fmap chain (list event) list_destroy cs)
      with (list_destroy <$> cs).
    rewrite IH by (intros b l Hl; apply (Hd (S b) l Hl)).
    unfold list_destroy at 1. rewrite (Hd 0%nat c eq_refl).
    destruct (destroy t =? NULL); [reflexivity|].
    rewrite fmap_app. reflexivity.
Qed.

(** X12: on a complete table whose chains were all created with the
    table's destructor, chash_destroy invokes that destructor exactly once
    on every stored value, bucket by bucket and along each chain, and
    invokes nothing at all when the destructor is null. *)
Theorem X12_destroy_releases_each_value (t : CHash) (log : list event) :
  wf t ->
  (forall cs b l, holds t cs -> cs !! b = Some l -> l_destroy l = destroy t) ->
  exists s',
    chash_destroy (mkState t log) = Ret (tt, s') /\
    st_log s' = log ++ (if destroy t =? NULL then []
                        else Destroyed (destroy t) <$> stored t).
Proof.
  intros Hw Hd. destruct (wf_holds t Hw) as [cs Hh].
  destruct Hh as [Htab Hlen].
  unfold chash_destroy, emit. run_monad.
  rewrite (stored_holds t cs Htab), Htab, <- Hlen, Nat2Z.id.
  change 0 with (Z.of_nat 0).
  rewrite (each_bucket_run _ cs (length cs) 0%nat eq_refl), drop_0.
  rewrite (concat_destroyed t cs)
    by (intros b l Hl; apply (Hd cs b l (conj Htab Hlen) Hl)).
  eexists. split; reflexivity.
Qed.

Lemma owned_demo_wf : wf owned_demo.
Proof.
  constructor.
  - cbn. unfold UINT_MODULUS. lia.
  - cbn. unfold INT_MAX. lia.
  - exists owned_chains. split; reflexivity.
Qed.

Lemma owned_demo_destructor cs b l :
  holds owned_demo cs -> cs !! b = Some l -> l_destroy l = destroy owned_demo.
Proof.
  intros Hh Hl.
  assert (cs = owned_chains) as ->
    by (apply (holds_unique owned_demo); [exact Hh | split; reflexivity]).
  destruct b as [|[|[|[|b]]]]; cbn in Hl; try discriminate;
    injection Hl as <-; reflexivity.
Qed.

Lemma X12_witness :
  wf owned_demo /\
  (forall cs b l, holds owned_demo cs -> cs !! b = Some l ->
                  l_destroy l = destroy owned_demo) /\
  exists s',
    chash_destroy (mkState owned_demo []) = Ret (tt, s') /\
    st_log s' = [] ++ (if destroy owned_demo =? NULL then []
                       else Destroyed (destroy owned_demo) <$> stored owned_demo).
Proof.
  split; [exact owned_demo_wf|]. split; [exact owned_demo_destructor|].
  apply (X12_destroy_releases_each_value owned_demo []);
    [exact owned_demo_wf | exact owned_demo_destructor].
Defined.

Example destroy_on_owned_demo :
  chash_destroy (mkState owned_demo [])
  = Ret (tt, mkState owned_demo [Destroyed 99 6]).
Proof. reflexivity. Qed.

(** One value inserted into a table built with destructor 99, then
    chash_destroy: the destructor runs once, on that value. *)
Example destroy_after_one_insert :
  chash_insert true 6 (mkState (fresh 4 addr_hash addr_match 99) [])
  = Ret (0, mkState (with_chain (fresh 4 addr_hash addr_match 99)
                       (replicate 4 (mkChain 99 [])) 2 (mkChain 99 [6]) 1) []) /\
  chash_destroy
    (mkState (with_chain (fresh 4 addr_hash addr_match 99)
                (replicate 4 (mkChain 99 [])) 2 (mkChain 99 [6]) 1) [])
  = Ret (tt,
         mkState (with_chain (fresh 4 addr_hash addr_match 99)
                    (replicate 4 (mkChain 99 [])) 2 (mkChain 99 [6]) 1)
           [Destroyed 99 6]).
Proof. split; reflexivity. Qed.

(** ** Construction: every way chash_init can end *)

Lemma init_loop_one_short lists_ok : forall k tbl done,
  table tbl = Some (done ++ replicate k None) ->
  init_loop lists_ok (S k) (Z.of_nat (length done)) tbl
  = if all_ok lists_ok k (Z.of_nat (length done)) then Fault OutOfBounds
    else Ret None.
Proof.
  induction k as [|k IH]; intros tbl done Ht.
  - cbn [init_loop all_ok replicate] in *. rewrite Ht, app_nil_r.
    unfold store. rewrite Nat2Z.id.
    destruct (Z.ltb_spec (Z.of_nat (length done)) 0) as [?|_]; [lia|].
    rewrite Nat.ltb_irrefl. reflexivity.
  - cbn [replicate] in Ht.
    change (init_loop lists_ok (S (S k)) (Z.of_nat (length done)) tbl)
      with (let l := list_create (lists_ok (Z.of_nat (length done))) (destroy tbl) in
            obind (store (table tbl) (Z.of_nat (length done)) l) (fun arr =>
            match l with
            | None => Ret None
            | Some _ => init_loop lists_ok (S k) (Z.of_nat (length done) + 1)
                          (set_table tbl arr)
            end)).
    cbn zeta. rewrite Ht, store_next. cbn [obind all_ok].
    unfold list_create.
    destruct (lists_ok (Z.of_nat (length done))); [|reflexivity].
    cbn [andb].
    replace (Z.of_nat (length done) + 1)
      with (Z.of_nat (length (done ++ [Some (mkChain (destroy tbl) [])])))
      by (rewrite length_app; cbn [length]; lia).
    apply IH. reflexivity.
Qed.

(** X14: for every positive size chash_init ends in one of four ways and
    never hands back a table: it returns NULL when the record cannot be
    allocated; it writes through the null array when calloc fails; it
    returns NULL when one of the first size - 1 lists cannot be created;
    and when all of those are created, its last store falls outside the
    block of size - 1 slots. *)
Theorem X14_init_positive_outcomes (tbl_ok arr_ok : bool)
    (lists_ok : Z -> bool) (sz : Z) (h : ptr -> Z) (m : ptr -> ptr -> Z)
    (d : ptr) :
  0 < sz ->
  chash_init tbl_ok arr_ok lists_ok sz h m d
  = if negb tbl_ok then Ret None
    else if negb arr_ok then Fault NullDeref
    else if all_ok lists_ok (Z.to_nat (sz - 1)) 0 then Fault OutOfBounds
    else Ret None.
Proof.
  intros Hsz. unfold chash_init, chash_init_alloc.
  destruct tbl_ok; [|reflexivity]. cbn [negb].
  replace (Z.to_nat sz) with (S (Z.to_nat (sz - 1))) by lia.
  unfold calloc. destruct arr_ok; cbn [andb negb].
  - destruct (Z.leb_spec 0 (sz - 1)) as [_|?]; [|lia].
    apply (init_loop_one_short lists_ok (Z.to_nat (sz - 1)) _ []).
    reflexivity.
  - reflexivity.
Qed.

Lemma X14_witness :
  0 < 10 /\
  chash_init true true (fun i => negb (i =? 4)) 10 addr_hash addr_match NULL
  = if negb true then Ret None
    else if negb true then Fault NullDeref
    else if all_ok (fun i => negb (i =? 4)) (Z.to_nat (10 - 1)) 0
         then Fault OutOfBounds
    else Ret None.
Proof.
  split; [lia|].
  apply (X14_init_positive_outcomes true true (fun i => negb (i =? 4)) 10).
  lia.
Defined.

(** X13: for a size of zero or below chash_init skips its loop and returns
    a table whose bucket array is null (calloc of a negative count); on
    that table every insert and every targeted lookup of a non-null value
    stops on a fault: a division by zero when size is 0, a read through the
    null array otherwise. *)
Theorem X13_init_nonpositive_size (arr_ok : bool) (lists_ok : Z -> bool)
    (sz : Z) (h : ptr -> Z) (m : ptr -> ptr -> Z) (d : ptr) :
  - INT_MAX <= sz <= 0 ->
  chash_init true arr_ok lists_ok sz h m d
  = Ret (Some (mkCHash 0 (to_uint sz) h m d None)) /\
  forall ok v log, v <> NULL ->
    chash_insert ok v (mkState (mkCHash 0 (to_uint sz) h m d None) log)
    = Fault (if sz =? 0 then DivByZero else NullDeref) /\
    chash_lookup v (mkState (mkCHash 0 (to_uint sz) h m d None) log)
    = Fault (if sz =? 0 then DivByZero else NullDeref).
Proof.
  intros Hsz. split.
  - unfold chash_init, chash_init_alloc, calloc.
    replace (Z.to_nat sz) with 0%nat by lia.
    destruct (Z.leb_spec 0 (sz - 1)) as [?|_]; [lia|].
    rewrite andb_false_r. reflexivity.
  - intros ok v log Hv.
    assert (chash_lookup v (mkState (mkCHash 0 (to_uint sz) h m d None) log)
            = Fault (if sz =? 0 then DivByZero else NullDeref)) as Hl.
    { unfold chash_lookup. run_monad.
      destruct (Z.eqb_spec v NULL) as [?|_]; [contradiction|]. cbn [negb].
      unfold bucket_of. cbn [buckets table].
      destruct (Z.eqb_spec sz 0) as [->|Hne]; [reflexivity|].
      assert (to_uint sz = sz + UINT_MODULUS) as E.
      { unfold to_uint. symmetry.
        apply (Z.mod_unique_pos _ _ (-1)); unfold UINT_MODULUS, INT_MAX in *; lia. }
      destruct (Z.eqb_spec (to_uint sz) 0) as [E0|_];
        [unfold UINT_MODULUS, INT_MAX in *; lia | reflexivity]. }
    split; [|exact Hl].
    unfold chash_insert.
    destruct (Z.eqb_spec v NULL) as [?|_]; [contradiction|].
    unfold bind at 1. rewrite Hl. reflexivity.
Qed.

Lemma X13_witness :
  - INT_MAX <= -2 <= 0 /\
  chash_init true true (fun _ => true) (-2) addr_hash addr_match NULL
  = Ret (Some (mkCHash 0 (to_uint (-2)) addr_hash addr_match NULL None)) /\
  forall ok v log, v <> NULL ->
    chash_insert ok v
      (mkState (mkCHash 0 (to_uint (-2)) addr_hash addr_match NULL None) log)
    = Fault (if -2 =? 0 then DivByZero else NullDeref) /\
    chash_lookup v
      (mkState (mkCHash 0 (to_uint (-2)) addr_hash addr_match NULL None) log)
    = Fault (if -2 =? 0 then DivByZero else NullDeref).
Proof.
  split; [unfold INT_MAX; lia|].
  apply (X13_init_nonpositive_size true (fun _ => true) (-2)).
  unfold INT_MAX. lia.
Defined.

(** ** The debug harness *)

(** X15: the hash_func and match_func of the debug harness meet the
    contract the table relies on: values that match have the same hash, and
    match_func is reflexive, symmetric and transitive. *)
Theorem X15_debug_functions_contract (mem : ptr -> Z) (sz n : Z) (d : ptr)
    (a : option (list (option chain))) :
  consistent (mkCHash sz n (hash_func mem) (match_func mem) d a) /\
  match_equiv (mkCHash sz n (hash_func mem) (match_func mem) d a).
Proof.
  split.
  - intros x y. cbn [match_ hash]. unfold match_func, hash_func.
    destruct (Z.eqb_spec (mem x) (mem y)) as [E|_]; [trivial | contradiction].
  - constructor; cbn [match_]; unfold match_func.
    + intros x. rewrite Z.eqb_refl. discriminate.
    + intros x y. rewrite (Z.eqb_sym (mem y)). trivial.
    + intros x y z.
      destruct (Z.eqb_spec (mem x) (mem y)) as [->|_]; [trivial | contradiction].
Qed.





Example main_remove_loop_on_built_demo :
  main_remove_loop 5 [] (mkState (built_demo [1; 6; 11]) [])
  = Ret (Drained [1; 6; 11], mkState (built_demo []) []).
Proof. reflexivity. Qed.

Example main_remove_loop_on_demo :
  main_remove_loop 5 [] (mkState (demo [1; 5; 9]) [])
  = Ret (Drained [1; 5; 9], mkState (demo []) []).
Proof. reflexivity. Qed.

(** ** A successful remove takes out exactly one value *)



